(** * Differential growth step (op_grow.py): a shallow embedding over the reals

    The development follows [src/op_grow.py].

    - Numbers are real numbers: rounding, overflow and the special values of
      machine floats are not represented.
    - Python exceptions are values of an error monad: [a / b] raises
      [ZeroDivisionError] for [b = 0], and [x ** y] follows the float power
      of the language.
    - The BMesh is a vertex list and an edge list; a vertex or an edge is
      referred to by its position, which is also [vert.index].  The mesh has
      a deform layer.
    - The deform layer entry of a vertex is a finite map from group index to
      weight.  Writing [weights[group_index] = w] is the host's write: it
      raises [KeyError] for a negative group index, [TypeError] for a value
      that is not a float, and stores the weight clamped to [[0, 1]].
    - The host library is taken by its behaviour: [Vector.normalized()] maps
      the zero vector to itself; [kd.find_range(co, r)] raises [RuntimeError]
      for a negative [r] and otherwise returns every inserted point within
      distance [r] of [co], nearest first; [noise.noise_vector] and
      [bmesh.ops.subdivide_edges] are parameters of the step. *)

From Stdlib Require Import Reals Lra Permutation.
From stdpp Require Import base gmap list.

Open Scope R_scope.

(** ** Python exceptions *)

Inductive exn : Type :=
| ZeroDivisionError
| TypeError
| KeyError
| RuntimeError.

Inductive result (A : Type) : Type :=
| Ok (a : A)
| Raise (e : exn).

Arguments Ok {A} a.
Arguments Raise {A} e.

(** Sequencing: an exception ends the computation ([x ← r; k] below). *)
#[global] Instance result_bind : MBind result := λ A B k r,
  match r with
  | Ok a => k a
  | Raise e => Raise e
  end.

(** A [for] loop whose body may raise: the first exception ends the loop. *)
Fixpoint for_each {A S : Type} (body : S -> A -> result S) (l : list A) (s : S)
  : result S :=
  match l with
  | [] => Ok s
  | a :: l' => s' ← body s a; for_each body l' s'
  end.

(** ** Python arithmetic on floats, read over the reals *)

(** The value of [x ** y]: a float, or a complex number that no float slot
    accepts. *)
Inductive pynum : Type :=
| PyFloat (r : R)
| PyComplex.

(** [a / b] on floats. *)
Definition py_div (a b : R) : result R :=
  if Req_dec_T b 0 then Raise ZeroDivisionError else Ok (a / b).

Definition is_integer (y : R) : Prop := y = IZR (Int_part y).

Definition is_integer_dec (y : R) : {is_integer y} + {~ is_integer y} :=
  Req_dec_T y (IZR (Int_part y)).

(** [x ** y] on floats: anything to the power 0 is 1; 0 to a negative power
    raises; 0 to a positive power is 0; a negative base with an exponent
    that is not an integer gives a complex number. *)
Definition py_pow (x y : R) : result pynum :=
  if Req_dec_T y 0 then Ok (PyFloat 1)
  else if Req_dec_T x 0 then
    if Rlt_dec y 0 then Raise ZeroDivisionError else Ok (PyFloat 0)
  else if Rlt_dec 0 x then Ok (PyFloat (Rpower x y))
  else if is_integer_dec y then Ok (PyFloat (powerRZ x (Int_part y)))
  else Ok PyComplex.

(** ** mathutils.Vector *)

Record Vector : Type := mkVector { vx : R; vy : R; vz : R }.

Definition vzero : Vector := mkVector 0 0 0.

Definition vadd (a b : Vector) : Vector :=
  mkVector (vx a + vx b) (vy a + vy b) (vz a + vz b).

Definition vsub (a b : Vector) : Vector :=
  mkVector (vx a - vx b) (vy a - vy b) (vz a - vz b).

(** [a * k] and [k * a] for a float [k]. *)
Definition vscale (a : Vector) (k : R) : Vector :=
  mkVector (vx a * k) (vy a * k) (vz a * k).

Definition vlength (a : Vector) : R :=
  sqrt (vx a * vx a + vy a * vy a + vz a * vz a).

(** [Vector.normalized()]: a vector of length zero is returned as the zero
    vector, any other is divided by its length. *)
Definition normalized (a : Vector) : Vector :=
  if Req_dec_T (vlength a) 0 then vzero else vscale a (1 / vlength a).

Declare Scope vec_scope.
Delimit Scope vec_scope with V.
Bind Scope vec_scope with Vector.
Infix "+" := vadd : vec_scope.
Infix "-" := vsub : vec_scope.
Infix "*" := vscale : vec_scope.

(** ** BMesh *)

Record BMVert : Type := mkVert {
  co : Vector;               (* vert.co *)
  deform : gmap Z R          (* vert[bm.verts.layers.deform.active] *)
}.

Record BMEdge : Type := mkEdge {
  ev1 : nat;                 (* edge.verts[0] *)
  ev2 : nat                  (* edge.verts[1] *)
}.

Record BMesh : Type := mkMesh {
  verts : list BMVert;       (* bm.verts; a vertex is its position here *)
  edges : list BMEdge        (* bm.edges; an edge is its position here *)
}.

#[global] Instance BMVert_inhabited : Inhabited BMVert :=
  populate (mkVert vzero ∅).
#[global] Instance BMEdge_inhabited : Inhabited BMEdge :=
  populate (mkEdge 0 0).

Definition vert (bm : BMesh) (v : nat) : BMVert := verts bm !!! v.
Definition edge (bm : BMesh) (e : nat) : BMEdge := edges bm !!! e.

(** [for i, vert in enumerate(bm.verts)] *)
Definition all_verts (bm : BMesh) : list nat := seq 0 (length (verts bm)).

Definition incident (v : nat) (e : BMEdge) : bool :=
  bool_decide (ev1 e = v) || bool_decide (ev2 e = v).

(** [vert.link_edges] *)
Definition link_edges (bm : BMesh) (v : nat) : list nat :=
  filter (λ e, incident v (edge bm e) = true) (seq 0 (length (edges bm))).

(** [edge.other_vert(vert)], [None] when [vert] is not on the edge. *)
Definition other_vert (e : BMEdge) (v : nat) : option nat :=
  if bool_decide (ev1 e = v) then Some (ev2 e)
  else if bool_decide (ev2 e = v) then Some (ev1 e)
  else None.

(** [edge.calc_length()] *)
Definition calc_length (bm : BMesh) (e : nat) : R :=
  vlength (co (vert bm (ev1 (edge bm e))) - co (vert bm (ev2 (edge bm e))))%V.

(** [vert.co = c] *)
Definition set_co (bm : BMesh) (v : nat) (c : Vector) : BMesh :=
  mkMesh (<[v := mkVert c (deform (vert bm v))]> (verts bm)) (edges bm).

Definition get_vertex_weight (bm : BMesh) (v : nat) (group_index : Z) : R :=
  let weights := deform (vert bm v) in
  match weights !! group_index with
  | Some w => w
  | None => 0
  end.

(** The host's [clamp_f (value, min, max)]. *)
Definition clamp_f (value lo hi : R) : R :=
  if Rlt_dec value lo then lo
  else if Rlt_dec hi value then hi
  else value.

(** The write [weights[group_index] = weight] goes through the host: a
    negative key is refused, then a value that is not a float, and what is
    stored is the weight clamped to [[0, 1]]. *)
Definition set_vertex_weight (bm : BMesh) (v : nat) (group_index : Z)
    (weight : pynum) : result BMesh :=
  if decide (group_index < 0)%Z then Raise KeyError
  else
    match weight with
    | PyFloat w =>
        let weights := deform (vert bm v) in
        Ok (mkMesh (<[v := mkVert (co (vert bm v))
                                  (<[group_index := clamp_f w 0 1]> weights)]>
                      (verts bm))
                   (edges bm))
    | PyComplex => Raise TypeError
    end.

(** [edge.verts] *)
Definition edge_verts (e : BMEdge) : list nat := [ev1 e; ev2 e].

Definition calc_avg_edge_weight (bm : BMesh) (es : list nat) (group_index : Z)
  : result R :=
  let '(sum, n) :=
    foldl (λ acc e,
             foldl (λ '(sum, n) v,
                      (sum + get_vertex_weight bm v group_index, S n))
                   acc (edge_verts (edge bm e)))
          (0, 0%nat) es in
  py_div sum (INR n).

Definition calc_vert_attraction (bm : BMesh) (v : nat) : Vector :=
  foldl (λ result e,
           match other_vert (edge bm e) v with
           | None => result
           | Some other => (result + (co (vert bm other) - co (vert bm v)))%V
           end)
        vzero (link_edges bm v).

(** ** mathutils.kdtree *)

(** The index holds the inserted points with their indices. *)
Definition KDTree : Type := list (Vector * nat).

Definition kd_insert (kd : KDTree) (c : Vector) (i : nat) : KDTree :=
  kd ++ [(c, i)].

Definition distance_to (c : Vector) (p : Vector * nat) : R :=
  vlength (p.1 - c)%V.

Fixpoint insert_by_distance (x : Vector * nat * R) (l : list (Vector * nat * R))
  : list (Vector * nat * R) :=
  match l with
  | [] => [x]
  | y :: l' =>
      if Rle_dec x.2 y.2 then x :: l else y :: insert_by_distance x l'
  end.

(** The range search of the tree: every inserted point whose distance to
    [co] is at most [radius], as [(co, index, distance)], nearest first. *)
Definition range_search (kd : KDTree) (c : Vector) (radius : R)
  : list (Vector * nat * R) :=
  foldr insert_by_distance []
    (omap (λ p, if Rle_dec (distance_to c p) radius
                then Some (p, distance_to c p) else None) kd).

(** [kd.find_range(co, radius)]: a negative radius is refused, any other
    goes to the range search. *)
Definition find_range (kd : KDTree) (c : Vector) (radius : R)
  : result (list (Vector * nat * R)) :=
  if Rlt_dec radius 0 then Raise RuntimeError
  else Ok (range_search kd c radius).

Definition calc_vert_repulsion (bm : BMesh) (v : nat) (kd : KDTree) (radius : R)
  : result Vector :=
  found ← find_range kd (co (vert bm v)) (radius * 2);
  Ok (foldl (λ result '(c, index, distance),
               if bool_decide (index = v) then result
               else
                 let direction := normalized (co (vert bm v) - c) in
                 let magnitude := exp (distance - radius) in
                 (result + direction * magnitude)%V)
            vzero found).

(** ** Sums of vectors and the terms of the repulsion *)

#[global] Instance Rlt_decision (x y : R) : Decision (x < y) := Rlt_dec x y.
#[global] Instance Rle_decision (x y : R) : Decision (x <= y) := Rle_dec x y.

Definition vsum (l : list Vector) : Vector := foldr vadd vzero l.

(** What the repulsion loop adds up over the points of the range search:
    the repulsion whenever the query is accepted. *)
Definition repulsion_value (bm : BMesh) (v : nat) (kd : KDTree) (radius : R)
  : Vector :=
  foldl (λ result '(c, index, distance),
           if bool_decide (index = v) then result
           else
             let direction := normalized (co (vert bm v) - c) in
             let magnitude := exp (distance - radius) in
             (result + direction * magnitude)%V)
        vzero (range_search kd (co (vert bm v)) (radius * 2)).

(** What one entry of the range query adds to the repulsion of a vertex
    at [c]. *)
Definition repulsion_of (c : Vector) (radius : R) (p : Vector * nat) : Vector :=
  (normalized (c - p.1) * exp (distance_to c p - radius))%V.

(** The indexed points that count for the vertex [v] at [c]: within
    [2 * radius] of [c], and not [v] itself. *)
Definition repellers (kd : KDTree) (v : nat) (c : Vector) (radius : R)
  : list (Vector * nat) :=
  filter (λ p, p.2 ≠ v) (filter (λ p, distance_to c p <= radius * 2) kd).

(** ** A two-vertex mesh and host operators for the examples *)

(** One edge from the origin to [(len, 0, 0)], with weights [w0] and [w1]
    in group 0. *)
Definition segment (len w0 w1 : R) : BMesh :=
  mkMesh [mkVert vzero {[0%Z := w0]};
          mkVert (mkVector len 0 0) {[0%Z := w1]}]
         [mkEdge 0 1].

(** Three vertices in a row joined by two edges, all of weight [w]. *)
Definition chain (w : R) : BMesh :=
  mkMesh [mkVert vzero {[0%Z := w]};
          mkVert (mkVector 1 0 0) {[0%Z := w]};
          mkVert (mkVector 2 0 0) {[0%Z := w]}]
         [mkEdge 0 1; mkEdge 1 2].

(** A noise field that is zero everywhere. *)
Definition still_noise : Vector → Vector := λ _, vzero.

Definition midpoint (bm : BMesh) (e : nat) : BMVert :=
  let a := vert bm (ev1 (edge bm e)) in
  let b := vert bm (ev2 (edge bm e)) in
  mkVert ((co a + co b) * (1 / 2))%V
         (union_with (λ x y, Some ((x + y) / 2)) (deform a) (deform b)).

(** Cutting one edge in two at a new vertex appended to the mesh. *)
Definition split_edge (bm : BMesh) (e : nat) : BMesh :=
  let n := length (verts bm) in
  let a := ev1 (edge bm e) in
  let b := ev2 (edge bm e) in
  mkMesh (verts bm ++ [midpoint bm e])
         (<[e := mkEdge a n]> (edges bm) ++ [mkEdge n b]).

(** A plain one-cut subdivision, standing for the host's operator. *)
Definition split_at_midpoints (bm : BMesh) (batch : list nat) : BMesh :=
  foldl split_edge bm batch.

(** ** The other helpers of the file *)

Definition calc_avg_edge_length (bm : BMesh) (es : list nat) : result R :=
  let sum := foldl (λ sum e, sum + calc_length bm e) 0 es in
  py_div sum (INR (length es)).

Definition calc_min_edge_length (bm : BMesh) (es : list nat) : R :=
  foldl (λ val e, Rmin (calc_length bm e) val) 100000 es.

(** ** Notions used to state what the helpers compute *)

Definition Rsum (l : list R) : R := foldr Rplus 0 l.

(** The weights read at the endpoints of the edges of a list, in the order
    [calc_avg_edge_weight] reads them. *)
Definition endpoint_weights (bm : BMesh) (group_index : Z) (es : list nat)
  : list R :=
  es ≫= λ e, (λ v, get_vertex_weight bm v group_index) <$> edge_verts (edge bm e).

(** The vertices at the other end of the edges linked to [v]. *)
Definition neighbours (bm : BMesh) (v : nat) : list nat :=
  omap (λ e, other_vert (edge bm e) v) (link_edges bm v).

(** The mesh moved as a whole by the vector [t]. *)
Definition translate (t : Vector) (bm : BMesh) : BMesh :=
  mkMesh ((λ x, mkVert (co x + t)%V (deform x)) <$> verts bm) (edges bm).

(** ** One growth step *)

Section grow_step.

Set Default Proof Using "Type".

(** [mathutils.noise.noise_vector] *)
Variable noise_vector : Vector → Vector.
(** [bmesh.ops.subdivide_edges] with the source's fixed options
    ([smooth=1.0], [cuts=1], [use_grid_fill], [use_single_edge]). *)
Variable subdivide_edges : BMesh → list nat → BMesh.

(** [obj.vertex_groups.active_index] and the step's parameters. *)
Variable group_index : Z.
Variables seed collision_radius split_radius dt weight_decay : R.
Variables noise_scale fac_attr fac_rep fac_noise : R.

Definition seed_vector : Vector := (mkVector 0 0 1 * seed)%V.

(** Lines 54-62: the vertices with a positive weight, in mesh order, and
    the set of edges linked to them. *)
Definition collect_verts (bm : BMesh) : list nat * gset nat :=
  foldl (λ '(vs, es) v,
           let weight := get_vertex_weight bm v group_index in
           if Rlt_dec 0 weight
           then (vs ++ [v], foldl (λ es e, {[e]} ∪ es) es (link_edges bm v))
           else (vs, es))
        ([], ∅) (all_verts bm).

(** Lines 64-67. *)
Definition build_kd (bm : BMesh) : KDTree :=
  foldl (λ kd i, kd_insert kd (co (vert bm i)) i) [] (all_verts bm).

(** Lines 71-83: the body of the force loop. *)
Definition move_vert (kd : KDTree) (bm : BMesh) (v : nat) : result BMesh :=
  let weight := get_vertex_weight bm v group_index in
  if Req_dec_T weight 0 then Ok bm
  else
    let f_attr := calc_vert_attraction bm v in
    f_rep ← calc_vert_repulsion bm v kd collision_radius;
    let f_noise := noise_vector (co (vert bm v) * noise_scale + seed_vector)%V in
    let force := (f_attr * fac_attr + f_rep * fac_rep + f_noise * fac_noise)%V in
    let offset := (force * dt * dt * weight)%V in
    Ok (set_co bm v (co (vert bm v) + offset)%V).

(** Lines 70-83. *)
Definition calc_forces (kd : KDTree) (vs : list nat) (bm : BMesh)
  : result BMesh :=
  for_each (move_vert kd) vs bm.

(** Lines 87-89: the body of the decay loop. *)
Definition decay_vert (bm : BMesh) (v : nat) : result BMesh :=
  let w := get_vertex_weight bm v group_index in
  w ← py_pow w weight_decay;
  set_vertex_weight bm v group_index w.

(** Lines 86-89. *)
Definition readjust_weights (bm : BMesh) : result BMesh :=
  for_each decay_vert (all_verts bm) bm.

(** Lines 94-99: whether the scan keeps the edge. *)
Definition wants_subdivide (bm : BMesh) (e : nat) : result bool :=
  avg_weight ← calc_avg_edge_weight bm [e] group_index;
  if Req_dec_T avg_weight 0 then Ok false
  else
    let l := calc_length bm e in
    a ← py_div l split_radius;
    b ← py_div 1 avg_weight;
    Ok (if Rgt_dec a b then true else false).

(** Lines 92-99. *)
Definition edges_to_subdivide (bm : BMesh) (es : list nat) : result (list nat) :=
  for_each (λ acc e,
              keep ← wants_subdivide bm e;
              Ok (if keep : bool then acc ++ [e] else acc))
           es [].

(** Lines 50-99: the mesh and the batch of edges that reach the
    subdivision call.  The edge set is scanned in the order of [elements];
    Python leaves the order of a set open. *)
Definition grow_step_core (bm : BMesh) : result (BMesh * list nat) :=
  let '(vs, es) := collect_verts bm in
  let kd := build_kd bm in
  bm ← calc_forces kd vs bm;
  bm ← readjust_weights bm;
  to_subdivide ← edges_to_subdivide bm (elements es);
  Ok (bm, to_subdivide).

Definition grow_step (bm : BMesh) : result BMesh :=
  '(bm, to_subdivide) ← grow_step_core bm;
  if bool_decide (0 < length to_subdivide)%nat
  then Ok (subdivide_edges bm to_subdivide)
  else Ok bm.

(** What one turn of the force loop makes of the mesh when its range query
    is accepted. *)
Definition move_value (kd : KDTree) (bm : BMesh) (v : nat) : BMesh :=
  let weight := get_vertex_weight bm v group_index in
  if Req_dec_T weight 0 then bm
  else
    let f_attr := calc_vert_attraction bm v in
    let f_rep := repulsion_value bm v kd collision_radius in
    let f_noise := noise_vector (co (vert bm v) * noise_scale + seed_vector)%V in
    let force := (f_attr * fac_attr + f_rep * fac_rep + f_noise * fac_noise)%V in
    let offset := (force * dt * dt * weight)%V in
    set_co bm v (co (vert bm v) + offset)%V.

(** What the force loop makes of the mesh when it returns. *)
Definition forces_value (kd : KDTree) (vs : list nat) (bm : BMesh) : BMesh :=
  foldl (move_value kd) bm vs.

(** Active at step start: the weight is positive. *)
Definition active (bm : BMesh) (v : nat) : Prop :=
  0 < get_vertex_weight bm v group_index.

(** The weights on which [w ** weight_decay] is a float. *)
Definition decays (w : R) : Prop :=
  weight_decay = 0 ∨ 0 < w ∨ (w = 0 ∧ 0 < weight_decay) ∨
  (w < 0 ∧ is_integer weight_decay).

(** The average weight the scan reads for one edge. *)
Definition avg_weight_of (bm : BMesh) (e : nat) : R :=
  (get_vertex_weight bm (ev1 (edge bm e)) group_index +
   get_vertex_weight bm (ev2 (edge bm e)) group_index) / 2.

(** The combined force on [v] in the mesh [bm]. *)
Definition force_on (kd : KDTree) (bm : BMesh) (v : nat) : Vector :=
  (calc_vert_attraction bm v * fac_attr +
   repulsion_value bm v kd collision_radius * fac_rep +
   noise_vector (co (vert bm v) * noise_scale + seed_vector) * fac_noise)%V.

(** A subdivision operator keeps weights when it leaves the deform entries
    of the vertices it is given as they are. *)
Definition subdivide_keeps_weights : Prop :=
  ∀ (bm : BMesh) (batch : list nat) (u : nat),
    (u < length (verts bm))%nat →
    deform (vert (subdivide_edges bm batch) u) = deform (vert bm u).

(** ** Vectors *)

Lemma vector_eq (a b : Vector) :
  vx a = vx b → vy a = vy b → vz a = vz b → a = b.
Proof. destruct a, b; simpl; congruence. Qed.

Ltac vec := apply vector_eq; simpl; ring.

Lemma vadd_comm (a b : Vector) : (a + b)%V = (b + a)%V.
Proof. vec. Qed.

Lemma vadd_assoc (a b c : Vector) : (a + (b + c))%V = (a + b + c)%V.
Proof. vec. Qed.

Lemma vadd_zero_l (a : Vector) : (vzero + a)%V = a.
Proof. vec. Qed.

Lemma vadd_zero_r (a : Vector) : (a + vzero)%V = a.
Proof. vec. Qed.

Lemma vsub_diag (a : Vector) : (a - a)%V = vzero.
Proof. vec. Qed.

Lemma vscale_zero (k : R) : (vzero * k)%V = vzero.
Proof. vec. Qed.

Lemma vlength_zero : vlength vzero = 0.
Proof.
  unfold vlength; simpl.
  replace (0 * 0 + 0 * 0 + 0 * 0) with 0 by ring. apply sqrt_0.
Qed.

Lemma normalized_zero : normalized vzero = vzero.
Proof.
  unfold normalized. rewrite vlength_zero.
  destruct (Req_dec_T 0 0) as [_|Hne]; [reflexivity | contradiction].
Qed.

Lemma vlength_nonneg (a : Vector) : 0 <= vlength a.
Proof. apply sqrt_pos. Qed.

Lemma vlength_scale (a : Vector) (k : R) :
  0 <= k → vlength (a * k) = vlength a * k.
Proof.
  intros Hk. unfold vlength; simpl.
  replace (vx a * k * (vx a * k) + vy a * k * (vy a * k) + vz a * k * (vz a * k))
    with ((vx a * vx a + vy a * vy a + vz a * vz a) * (k * k)) by ring.
  rewrite sqrt_mult_alt by nra.
  rewrite (sqrt_square k Hk). reflexivity.
Qed.

(** A vector that is not of length zero is normalised to length one. *)
Lemma vlength_normalized (a : Vector) :
  vlength a ≠ 0 → vlength (normalized a) = 1.
Proof.
  intros Hne. unfold normalized.
  destruct (Req_dec_T (vlength a) 0) as [H0|_]; [contradiction|].
  pose proof (vlength_nonneg a) as Hpos.
  rewrite vlength_scale.
  - field. exact Hne.
  - apply Rlt_le. apply Rdiv_lt_0_compat; lra.
Qed.

(** ** What the mesh writes leave alone *)

Lemma edges_set_co bm v c : edges (set_co bm v c) = edges bm.
Proof. reflexivity. Qed.

Lemma length_set_co bm v c :
  length (verts (set_co bm v c)) = length (verts bm).
Proof. unfold set_co; simpl. apply length_insert. Qed.

Lemma vert_set_co bm v c u :
  vert (set_co bm v c) u =
    if decide (v = u ∧ (v < length (verts bm))%nat)
    then mkVert c (deform (vert bm v)) else vert bm u.
Proof. unfold vert, set_co; simpl. apply list_lookup_total_insert. Qed.

Lemma deform_set_co bm v c u :
  deform (vert (set_co bm v c) u) = deform (vert bm u).
Proof.
  rewrite vert_set_co. case_decide as H; [|reflexivity].
  destruct H as [-> _]. reflexivity.
Qed.

Lemma co_set_co_ne bm v c u :
  u ≠ v → co (vert (set_co bm v c) u) = co (vert bm u).
Proof.
  intros Hne. rewrite vert_set_co. case_decide as H; [|reflexivity].
  destruct H as [-> _]. contradiction.
Qed.

Lemma co_set_co_eq bm v c :
  (v < length (verts bm))%nat → co (vert (set_co bm v c) v) = c.
Proof.
  intros Hlt. rewrite vert_set_co. case_decide as H; [reflexivity|].
  exfalso. apply H. split; [reflexivity | exact Hlt].
Qed.

Lemma weight_set_co bm v c u g :
  get_vertex_weight (set_co bm v c) u g = get_vertex_weight bm u g.
Proof. unfold get_vertex_weight. rewrite deform_set_co. reflexivity. Qed.

Lemma edges_move_value kd bm v : edges (move_value kd bm v) = edges bm.
Proof. unfold move_value. destruct (Req_dec_T _ 0); reflexivity. Qed.

Lemma length_move_value kd bm v :
  length (verts (move_value kd bm v)) = length (verts bm).
Proof.
  unfold move_value. destruct (Req_dec_T _ 0); [reflexivity|].
  apply length_set_co.
Qed.

Lemma deform_move_value kd bm v u :
  deform (vert (move_value kd bm v) u) = deform (vert bm u).
Proof.
  unfold move_value. destruct (Req_dec_T _ 0); [reflexivity|].
  apply deform_set_co.
Qed.

Lemma co_move_value_ne kd bm v u :
  u ≠ v → co (vert (move_value kd bm v) u) = co (vert bm u).
Proof.
  intros Hne. unfold move_value. destruct (Req_dec_T _ 0); [reflexivity|].
  apply co_set_co_ne, Hne.
Qed.

Lemma edges_forces_value kd vs bm : edges (forces_value kd vs bm) = edges bm.
Proof.
  unfold forces_value. revert bm.
  induction vs as [|v vs IH]; intros bm; simpl; [reflexivity|].
  rewrite IH. apply edges_move_value.
Qed.

Lemma length_forces_value kd vs bm :
  length (verts (forces_value kd vs bm)) = length (verts bm).
Proof.
  unfold forces_value. revert bm.
  induction vs as [|v vs IH]; intros bm; simpl; [reflexivity|].
  rewrite IH. apply length_move_value.
Qed.

Lemma deform_forces_value kd vs bm u :
  deform (vert (forces_value kd vs bm) u) = deform (vert bm u).
Proof.
  unfold forces_value. revert bm.
  induction vs as [|v vs IH]; intros bm; simpl; [reflexivity|].
  rewrite IH. apply deform_move_value.
Qed.

Lemma weight_forces_value kd vs bm u g :
  get_vertex_weight (forces_value kd vs bm) u g = get_vertex_weight bm u g.
Proof. unfold get_vertex_weight. rewrite deform_forces_value. reflexivity. Qed.

(** The force loop writes the position of no vertex outside its list. *)
Lemma co_forces_value_notin kd vs bm u :
  u ∉ vs → co (vert (forces_value kd vs bm) u) = co (vert bm u).
Proof.
  unfold forces_value. revert bm.
  induction vs as [|v vs IH]; intros bm Hnotin; simpl; [reflexivity|].
  apply not_elem_of_cons in Hnotin as [Hne Hnotin].
  rewrite IH by exact Hnotin. apply co_move_value_ne, Hne.
Qed.

(** ** The collected vertices and edges *)

Lemma elem_of_add_all (l : list nat) (es : gset nat) (e : nat) :
  e ∈ foldl (λ es e, {[e]} ∪ es) es l ↔ e ∈ es ∨ e ∈ l.
Proof.
  revert es. induction l as [|x l IH]; intros es; simpl.
  - rewrite elem_of_nil. tauto.
  - rewrite IH, elem_of_union, elem_of_singleton, elem_of_cons. tauto.
Qed.

Lemma collect_verts_from (bm : BMesh) (l vs0 : list nat) (es0 : gset nat) :
  let r := foldl (λ '(vs, es) v,
                    let weight := get_vertex_weight bm v group_index in
                    if Rlt_dec 0 weight
                    then (vs ++ [v],
                          foldl (λ es e, {[e]} ∪ es) es (link_edges bm v))
                    else (vs, es))
                 (vs0, es0) l in
  r.1 = vs0 ++ filter (active bm) l ∧
  ∀ e, e ∈ r.2 ↔ e ∈ es0 ∨ ∃ v, v ∈ l ∧ active bm v ∧ e ∈ link_edges bm v.
Proof.
  revert vs0 es0. induction l as [|x l IH]; intros vs0 es0; simpl.
  - split; [by rewrite app_nil_r|]. intros e. split; [by left|].
    intros [He|(v & Hv & _)]; [exact He|]. by apply elem_of_nil in Hv.
  - destruct (Rlt_dec 0 (get_vertex_weight bm x group_index)) as [Hact|Hin].
    + specialize (IH (vs0 ++ [x])
                     (foldl (λ es e, {[e]} ∪ es) es0 (link_edges bm x))).
      simpl in IH. destruct IH as [IH1 IH2]. split.
      * rewrite IH1. rewrite filter_cons_True by exact Hact.
        by rewrite <- app_assoc.
      * intros e. rewrite IH2, elem_of_add_all. split.
        -- intros [[He|He]|(v & Hv & Ha & He)].
           ++ by left.
           ++ right. exists x. split; [apply elem_of_cons; by left|]. done.
           ++ right. exists v. split; [apply elem_of_cons; by right|]. done.
        -- intros [He|(v & Hv & Ha & He)]; [by left; left|].
           apply elem_of_cons in Hv as [->|Hv]; [by left; right|].
           right. by exists v.
    + specialize (IH vs0 es0). simpl in IH. destruct IH as [IH1 IH2]. split.
      * rewrite IH1. by rewrite filter_cons_False by exact Hin.
      * intros e. rewrite IH2. split.
        -- intros [He|(v & Hv & Ha & He)]; [by left|].
           right. exists v. split; [apply elem_of_cons; by right|]. done.
        -- intros [He|(v & Hv & Ha & He)]; [by left|].
           apply elem_of_cons in Hv as [->|Hv]; [contradiction|].
           right. by exists v.
Qed.

(** The active list is the mesh order restricted to positive weights. *)
Lemma collect_verts_fst (bm : BMesh) :
  (collect_verts bm).1 = filter (active bm) (all_verts bm).
Proof. apply (collect_verts_from bm (all_verts bm) [] ∅). Qed.

(** The edge set holds exactly the edges linked to an active vertex. *)
Lemma collect_verts_snd (bm : BMesh) (e : nat) :
  e ∈ (collect_verts bm).2 ↔
    ∃ v, (v < length (verts bm))%nat ∧ active bm v ∧ e ∈ link_edges bm v.
Proof.
  destruct (collect_verts_from bm (all_verts bm) [] ∅) as [_ H].
  unfold collect_verts. rewrite H. unfold all_verts. split.
  - intros [He|(v & Hv & Ha & He)]; [by apply not_elem_of_empty in He|].
    exists v. apply elem_of_seq in Hv. split; [lia|done].
  - intros (v & Hv & Ha & He). right. exists v.
    split; [apply elem_of_seq; lia|done].
Qed.

Lemma elem_of_collect_verts (bm : BMesh) (v : nat) :
  v ∈ (collect_verts bm).1 ↔ (v < length (verts bm))%nat ∧ active bm v.
Proof.
  rewrite collect_verts_fst, list_elem_of_filter. unfold all_verts.
  rewrite elem_of_seq. split; intros [? ?]; split; (done || lia).
Qed.

Lemma NoDup_collect_verts (bm : BMesh) : NoDup (collect_verts bm).1.
Proof. rewrite collect_verts_fst. apply NoDup_filter, NoDup_seq. Qed.

Lemma elem_of_link_edges (bm : BMesh) (v e : nat) :
  e ∈ link_edges bm v ↔
    (e < length (edges bm))%nat ∧
    (ev1 (edge bm e) = v ∨ ev2 (edge bm e) = v).
Proof.
  unfold link_edges. rewrite list_elem_of_filter, elem_of_seq.
  unfold incident. rewrite orb_true_iff, !bool_decide_eq_true.
  split; intros [? ?]; split; (done || lia).
Qed.

(** ** The decay pass *)

Lemma py_pow_float_iff (w : R) :
  (∃ w', py_pow w weight_decay = Ok (PyFloat w')) ↔ decays w.
Proof.
  unfold py_pow, decays.
  destruct (Req_dec_T weight_decay 0) as [Hd|Hd].
  { split; [by left | by exists 1]. }
  destruct (Req_dec_T w 0) as [Hw|Hw].
  { destruct (Rlt_dec weight_decay 0) as [Hneg|Hpos].
    - split; [intros [w' H]; discriminate|].
      intros [?|[?|[[_ ?]|[? _]]]]; (contradiction || lra).
    - split; [|by exists 0]. intros _. right; right; left. split; lra. }
  destruct (Rlt_dec 0 w) as [Hp|Hn].
  { split; [by right; left | by eexists]. }
  destruct (is_integer_dec weight_decay) as [Hi|Hi].
  - split; [|by eexists]. intros _. right; right; right. split; [lra|done].
  - split; [intros [w' H]; discriminate|].
    intros [?|[?|[[? _]|[_ ?]]]]; (contradiction || lra).
Qed.

Lemma decay_vert_Ok (bm bm' : BMesh) (v : nat) :
  decay_vert bm v = Ok bm' →
  ∃ w', py_pow (get_vertex_weight bm v group_index) weight_decay
          = Ok (PyFloat w') ∧
        bm' = mkMesh
                (<[v := mkVert (co (vert bm v))
                               (<[group_index := clamp_f w' 0 1]>
                                  (deform (vert bm v)))]>
                   (verts bm))
                (edges bm).
Proof.
  unfold decay_vert, set_vertex_weight.
  destruct (py_pow _ weight_decay) as [[w'|]|err]; simpl;
    destruct (decide (group_index < 0)%Z); intros H; try discriminate H.
  exists w'. split; [reflexivity|]. by injection H as <-.
Qed.

Lemma decay_vert_key (bm bm' : BMesh) (v : nat) :
  decay_vert bm v = Ok bm' → (0 <= group_index)%Z.
Proof.
  unfold decay_vert, set_vertex_weight.
  destruct (py_pow _ weight_decay) as [[w'|]|err]; simpl;
    destruct (decide (group_index < 0)%Z); intros H; try discriminate H.
  lia.
Qed.

Lemma decay_vert_frame (bm bm' : BMesh) (v : nat) :
  decay_vert bm v = Ok bm' →
  edges bm' = edges bm ∧ length (verts bm') = length (verts bm) ∧
  (∀ u, co (vert bm' u) = co (vert bm u)) ∧
  (∀ u, u ≠ v → deform (vert bm' u) = deform (vert bm u)).
Proof.
  intros (w' & _ & ->)%decay_vert_Ok. simpl.
  split; [reflexivity|]. split; [apply length_insert|]. split.
  - intros u. unfold vert at 1; simpl. rewrite list_lookup_total_insert.
    case_decide as H; [|reflexivity]. by destruct H as [-> _].
  - intros u Hne. unfold vert at 1; simpl.
    by rewrite list_lookup_total_insert_ne.
Qed.

Lemma decay_loop_Ok (l : list nat) (bm bm' : BMesh) :
  NoDup l → for_each decay_vert l bm = Ok bm' →
  edges bm' = edges bm ∧ length (verts bm') = length (verts bm) ∧
  (∀ u, co (vert bm' u) = co (vert bm u)) ∧
  (∀ u, u ∉ l → deform (vert bm' u) = deform (vert bm u)) ∧
  (∀ u, u ∈ l → (u < length (verts bm))%nat →
     ∃ w', py_pow (get_vertex_weight bm u group_index) weight_decay
             = Ok (PyFloat w') ∧
           deform (vert bm' u)
             = <[group_index := clamp_f w' 0 1]> (deform (vert bm u))).
Proof.
  revert bm. induction l as [|v l IH]; intros bm Hnd; simpl.
  { intros [= <-]. repeat split; try done.
    intros u Hu. by apply elem_of_nil in Hu. }
  apply NoDup_cons in Hnd as [Hv Hnd].
  destruct (decay_vert bm v) as [bm1|err] eqn:Hstep; simpl; [|discriminate].
  intros Hrest. destruct (IH bm1 Hnd Hrest) as (He & Hlen & Hco & Hout & Hin).
  destruct (decay_vert_frame _ _ _ Hstep) as (He1 & Hlen1 & Hco1 & Hout1).
  split; [congruence|]. split; [congruence|]. split.
  { intros u. by rewrite Hco, Hco1. }
  split.
  { intros u [Hne Hu]%not_elem_of_cons. by rewrite Hout, Hout1. }
  intros u Hu Hlt. apply elem_of_cons in Hu as [->|Hu].
  - destruct (decay_vert_Ok _ _ _ Hstep) as (w' & Hpow & ->).
    exists w'. split; [exact Hpow|]. rewrite Hout by exact Hv.
    unfold vert at 1; simpl. by rewrite list_lookup_total_insert_eq.
  - assert (u ≠ v) as Hne by (intros ->; contradiction).
    destruct (Hin u Hu) as (w' & Hpow & Hdef); [lia|].
    exists w'. unfold get_vertex_weight in *.
    rewrite Hout1 in Hpow, Hdef by exact Hne. done.
Qed.

(** The decay pass keeps positions and connectivity and replaces the
    entry of every vertex by its weight to the power [weight_decay]. *)
Lemma readjust_weights_Ok (bm bm' : BMesh) :
  readjust_weights bm = Ok bm' →
  edges bm' = edges bm ∧ length (verts bm') = length (verts bm) ∧
  (∀ u, co (vert bm' u) = co (vert bm u)) ∧
  (∀ u, (u < length (verts bm))%nat →
     ∃ w', py_pow (get_vertex_weight bm u group_index) weight_decay
             = Ok (PyFloat w') ∧
           deform (vert bm' u)
             = <[group_index := clamp_f w' 0 1]> (deform (vert bm u))).
Proof.
  intros H. apply decay_loop_Ok in H; [|apply NoDup_seq].
  destruct H as (He & Hlen & Hco & _ & Hin). repeat split; try done.
  intros u Hu. apply Hin; [|exact Hu]. apply elem_of_seq. lia.
Qed.

Lemma decay_loop_total (l : list nat) (bm : BMesh) :
  (0 <= group_index)%Z → NoDup l →
  (∀ u, u ∈ l → decays (get_vertex_weight bm u group_index)) →
  ∃ bm', for_each decay_vert l bm = Ok bm'.
Proof.
  intros Hkey. revert bm.
  induction l as [|v l IH]; intros bm Hnd Hall; simpl.
  { by eexists. }
  apply NoDup_cons in Hnd as [Hv Hnd].
  destruct (proj2 (py_pow_float_iff _) (Hall v ltac:(left))) as [w' Hpow].
  assert (∃ bm1, decay_vert bm v = Ok bm1) as [bm1 Hstep].
  { unfold decay_vert, set_vertex_weight. rewrite Hpow. simpl.
    rewrite decide_False by lia. by eexists. }
  rewrite Hstep. simpl. apply IH; [exact Hnd|].
  intros u Hu. assert (u ≠ v) as Hne by (intros ->; contradiction).
  destruct (decay_vert_frame _ _ _ Hstep) as (_ & _ & _ & Hout).
  unfold get_vertex_weight. rewrite Hout by exact Hne.
  apply Hall. by right.
Qed.

(** The decay pass raises nothing when the group index is not negative
    and every weight has a float power. *)
Lemma readjust_weights_total (bm : BMesh) :
  (0 <= group_index)%Z →
  (∀ u, (u < length (verts bm))%nat →
        decays (get_vertex_weight bm u group_index)) →
  ∃ bm', readjust_weights bm = Ok bm'.
Proof.
  intros Hkey Hall. apply decay_loop_total; [exact Hkey | apply NoDup_seq|].
  intros u Hu%elem_of_seq. apply Hall. lia.
Qed.

(** ** The subdivision scan *)

Lemma calc_avg_edge_weight_single (bm : BMesh) (e : nat) :
  calc_avg_edge_weight bm [e] group_index = Ok (avg_weight_of bm e).
Proof.
  unfold calc_avg_edge_weight, avg_weight_of, py_div; simpl.
  destruct (Req_dec_T (1 + 1) 0) as [H|_]; [lra|].
  f_equal. field.
Qed.

Lemma wants_subdivide_zero (bm : BMesh) (e : nat) :
  avg_weight_of bm e = 0 → wants_subdivide bm e = Ok false.
Proof.
  intros H0. unfold wants_subdivide.
  rewrite calc_avg_edge_weight_single; simpl.
  destruct (Req_dec_T _ 0); [reflexivity | contradiction].
Qed.

Lemma wants_subdivide_raise (bm : BMesh) (e : nat) :
  avg_weight_of bm e ≠ 0 → split_radius = 0 →
  wants_subdivide bm e = Raise ZeroDivisionError.
Proof.
  intros Hne Hs. unfold wants_subdivide.
  rewrite calc_avg_edge_weight_single; simpl.
  destruct (Req_dec_T _ 0); [contradiction|].
  unfold py_div. destruct (Req_dec_T split_radius 0); [reflexivity|contradiction].
Qed.

Lemma wants_subdivide_nonzero (bm : BMesh) (e : nat) :
  avg_weight_of bm e ≠ 0 → split_radius ≠ 0 →
  wants_subdivide bm e =
    Ok (if Rgt_dec (calc_length bm e / split_radius) (1 / avg_weight_of bm e)
        then true else false).
Proof.
  intros Hne Hs. unfold wants_subdivide.
  rewrite calc_avg_edge_weight_single; simpl.
  destruct (Req_dec_T _ 0); [contradiction|].
  unfold py_div. destruct (Req_dec_T split_radius 0); [contradiction|]. simpl.
  destruct (Req_dec_T _ 0); [contradiction|]. reflexivity.
Qed.

Lemma scan_from (bm : BMesh) (es acc l : list nat) :
  for_each (λ acc e,
              keep ← wants_subdivide bm e;
              Ok (if keep : bool then acc ++ [e] else acc)) es acc = Ok l →
  ∀ e, e ∈ l ↔ e ∈ acc ∨ (e ∈ es ∧ wants_subdivide bm e = Ok true).
Proof.
  revert acc. induction es as [|x es IH]; intros acc; simpl.
  { intros [= <-] e. split; [by left|].
    intros [?|[H _]]; [done | by apply elem_of_nil in H]. }
  destruct (wants_subdivide bm x) as [keep|err] eqn:Hx; simpl; [|discriminate].
  intros Hrest e. rewrite (IH _ Hrest e). destruct keep.
  - rewrite elem_of_app, list_elem_of_singleton, elem_of_cons. split.
    + intros [[?| ->]|[? ?]]; [by left | by right; split; [left|] |].
      right. split; [by right | done].
    + intros [?|[[-> |?] ?]];
        [by left; left | by left; right | by right].
  - rewrite elem_of_cons. split.
    + intros [?|[? ?]]; [by left|]. right. split; [by right | done].
    + intros [?|[[-> |?] ?]]; [by left | congruence | by right].
Qed.

(** The batch holds exactly the scanned edges that pass the test. *)
Lemma edges_to_subdivide_Ok (bm : BMesh) (es l : list nat) :
  edges_to_subdivide bm es = Ok l →
  ∀ e, e ∈ l ↔ e ∈ es ∧ wants_subdivide bm e = Ok true.
Proof.
  intros H e. rewrite (scan_from _ _ _ _ H e). split.
  - intros [Hnil|He]; [by apply elem_of_nil in Hnil | exact He].
  - intros He. by right.
Qed.

Lemma scan_total (bm : BMesh) (es acc : list nat) :
  (∀ e, e ∈ es → ∃ b, wants_subdivide bm e = Ok b) →
  ∃ l, for_each (λ acc e,
                   keep ← wants_subdivide bm e;
                   Ok (if keep : bool then acc ++ [e] else acc)) es acc = Ok l.
Proof.
  revert acc. induction es as [|x es IH]; intros acc Hall; simpl.
  { by eexists. }
  destruct (Hall x ltac:(left)) as [b ->]. simpl.
  apply IH. intros e He. apply Hall. by right.
Qed.

Lemma scan_empty (bm : BMesh) : edges_to_subdivide bm [] = Ok [].
Proof. reflexivity. Qed.

(** ** The force loop and the value it returns *)

Lemma calc_vert_repulsion_cases (bm : BMesh) (v : nat) (kd : KDTree)
    (radius : R) :
  calc_vert_repulsion bm v kd radius =
    if Rlt_dec radius 0 then Raise RuntimeError
    else Ok (repulsion_value bm v kd radius).
Proof.
  unfold calc_vert_repulsion, find_range, repulsion_value.
  destruct (Rlt_dec (radius * 2) 0) as [H2|H2];
    destruct (Rlt_dec radius 0) as [H|H]; try reflexivity; lra.
Qed.

Lemma calc_vert_repulsion_nonneg (bm : BMesh) (v : nat) (kd : KDTree)
    (radius : R) :
  0 <= radius →
  calc_vert_repulsion bm v kd radius = Ok (repulsion_value bm v kd radius).
Proof.
  intros Hr. rewrite calc_vert_repulsion_cases.
  destruct (Rlt_dec radius 0); [lra | reflexivity].
Qed.

Lemma calc_vert_repulsion_negative (bm : BMesh) (v : nat) (kd : KDTree)
    (radius : R) :
  radius < 0 → calc_vert_repulsion bm v kd radius = Raise RuntimeError.
Proof.
  intros Hr. rewrite calc_vert_repulsion_cases.
  destruct (Rlt_dec radius 0); [reflexivity | lra].
Qed.

Lemma calc_vert_repulsion_Ok (bm : BMesh) (v : nat) (kd : KDTree)
    (radius : R) (f : Vector) :
  calc_vert_repulsion bm v kd radius = Ok f →
  0 <= radius ∧ f = repulsion_value bm v kd radius.
Proof.
  rewrite calc_vert_repulsion_cases.
  destruct (Rlt_dec radius 0); intros H; [discriminate H|].
  injection H as <-. split; [lra | reflexivity].
Qed.

(** A turn that returns gives the value of the turn. *)
Lemma move_vert_Ok kd bm v bm' :
  move_vert kd bm v = Ok bm' → bm' = move_value kd bm v.
Proof.
  unfold move_vert, move_value.
  destruct (Req_dec_T _ 0); [intros H; by injection H as <-|].
  rewrite calc_vert_repulsion_cases.
  destruct (Rlt_dec collision_radius 0); simpl; intros H; [discriminate H|].
  by injection H as <-.
Qed.

Lemma move_vert_returns kd bm v :
  0 <= collision_radius ∨ get_vertex_weight bm v group_index = 0 →
  move_vert kd bm v = Ok (move_value kd bm v).
Proof.
  intros Hok. unfold move_vert, move_value.
  destruct (Req_dec_T _ 0) as [H0|Hne]; [reflexivity|].
  destruct Hok as [Hr|H0]; [|contradiction].
  by rewrite calc_vert_repulsion_nonneg.
Qed.

Lemma move_vert_raises kd bm v :
  collision_radius < 0 → get_vertex_weight bm v group_index ≠ 0 →
  move_vert kd bm v = Raise RuntimeError.
Proof.
  intros Hr Hw. unfold move_vert.
  destruct (Req_dec_T _ 0) as [H0|_]; [contradiction|].
  by rewrite calc_vert_repulsion_negative.
Qed.

(** A force loop that returns gives the value of the loop. *)
Lemma calc_forces_Ok kd vs bm bm' :
  calc_forces kd vs bm = Ok bm' → bm' = forces_value kd vs bm.
Proof.
  unfold calc_forces, forces_value. revert bm.
  induction vs as [|v vs IH]; intros bm; simpl.
  - intros H. by injection H as <-.
  - destruct (move_vert kd bm v) as [bm1|err] eqn:Hstep; simpl;
      [|intros H; discriminate H].
    apply move_vert_Ok in Hstep as ->. apply IH.
Qed.

Lemma calc_forces_returns kd vs bm :
  0 <= collision_radius → calc_forces kd vs bm = Ok (forces_value kd vs bm).
Proof.
  intros Hr. unfold calc_forces, forces_value. revert bm.
  induction vs as [|v vs IH]; intros bm; simpl; [reflexivity|].
  rewrite move_vert_returns by (by left). simpl. apply IH.
Qed.

(** With a negative collision radius the loop raises at the first vertex
    whose weight is not 0. *)
Lemma calc_forces_raises kd vs bm v :
  collision_radius < 0 → v ∈ vs → get_vertex_weight bm v group_index ≠ 0 →
  calc_forces kd vs bm = Raise RuntimeError.
Proof.
  intros Hr Hv Hw. unfold calc_forces. revert bm Hw.
  induction vs as [|x vs IH]; intros bm Hw; simpl.
  { by apply elem_of_nil in Hv. }
  destruct (Req_dec_T (get_vertex_weight bm x group_index) 0) as [H0|Hne].
  - rewrite move_vert_returns by (by right). simpl.
    apply elem_of_cons in Hv as [->|Hv]; [contradiction|].
    apply IH; [exact Hv|]. unfold move_value.
    destruct (Req_dec_T _ 0); [exact Hw | contradiction].
  - by rewrite move_vert_raises.
Qed.

(** A loop that returns has returned after each of its prefixes. *)
Lemma calc_forces_prefix kd l1 l2 bm bm' :
  calc_forces kd (l1 ++ l2) bm = Ok bm' →
  calc_forces kd l1 bm = Ok (forces_value kd l1 bm) ∧
  calc_forces kd l2 (forces_value kd l1 bm) = Ok bm'.
Proof.
  unfold calc_forces, forces_value. revert bm.
  induction l1 as [|v l1 IH]; intros bm; simpl; [by split|].
  destruct (move_vert kd bm v) as [bm1|err] eqn:Hstep; simpl;
    [|intros H; discriminate H].
  apply move_vert_Ok in Hstep as ->. apply IH.
Qed.

(** ** The step as the sequence of its four phases *)

Lemma grow_step_core_Ok (bm bm2 : BMesh) (l : list nat) :
  grow_step_core bm = Ok (bm2, l) ↔
    calc_forces (build_kd bm) (collect_verts bm).1 bm
      = Ok (forces_value (build_kd bm) (collect_verts bm).1 bm) ∧
    readjust_weights
      (forces_value (build_kd bm) (collect_verts bm).1 bm) = Ok bm2 ∧
    edges_to_subdivide bm2 (elements (collect_verts bm).2) = Ok l.
Proof.
  unfold grow_step_core. destruct (collect_verts bm) as [vs es]; simpl.
  destruct (calc_forces (build_kd bm) vs bm) as [moved|err] eqn:Hforce; simpl.
  - apply calc_forces_Ok in Hforce as ->.
    destruct (readjust_weights _) as [bm'|err]; simpl.
    + destruct (edges_to_subdivide bm' _) as [l'|err] eqn:Hscan; simpl.
      * split.
        -- intros H. injection H as <- <-. done.
        -- intros (_ & H1 & H2). injection H1 as <-. congruence.
      * split; [intros H; discriminate H|].
        intros (_ & H1 & H2). injection H1 as <-. congruence.
    + split; [intros H; discriminate H | intros (_ & H & _); discriminate H].
  - split; [intros H; discriminate H | intros (H & _); discriminate H].
Qed.

(** ** The force loop *)

Lemma forces_value_app kd l1 l2 bm :
  forces_value kd (l1 ++ l2) bm = forces_value kd l2 (forces_value kd l1 bm).
Proof. unfold forces_value. apply foldl_app. Qed.

Lemma forces_value_cons kd v l bm :
  forces_value kd (v :: l) bm = forces_value kd l (move_value kd bm v).
Proof. reflexivity. Qed.

Lemma move_value_active kd bm v :
  (v < length (verts bm))%nat → get_vertex_weight bm v group_index ≠ 0 →
  co (vert (move_value kd bm v) v) =
    (co (vert bm v) +
     force_on kd bm v * (dt ^ 2 * get_vertex_weight bm v group_index))%V.
Proof.
  intros Hlt Hw. unfold move_value.
  destruct (Req_dec_T _ 0) as [H0|_]; [contradiction|].
  rewrite co_set_co_eq by exact Hlt. unfold force_on. vec.
Qed.

Lemma move_value_inert kd bm v :
  get_vertex_weight bm v group_index = 0 → move_value kd bm v = bm.
Proof.
  intros Hw. unfold move_value.
  destruct (Req_dec_T _ 0) as [_|Hne]; [reflexivity | contradiction].
Qed.

(** The position of a listed vertex after the whole loop is the one its
    own turn wrote, computed in the mesh as the earlier turns left it. *)
Lemma forces_value_at kd l1 v l2 bm :
  NoDup (l1 ++ v :: l2) →
  (v < length (verts bm))%nat → get_vertex_weight bm v group_index ≠ 0 →
  let bm1 := forces_value kd l1 bm in
  co (vert bm1 v) = co (vert bm v) ∧
  co (vert (forces_value kd (l1 ++ v :: l2) bm) v) =
    (co (vert bm v) +
     force_on kd bm1 v * (dt ^ 2 * get_vertex_weight bm v group_index))%V.
Proof.
  intros Hnd Hlt Hw bm1.
  apply NoDup_app in Hnd as (_ & Hl1 & [Hl2 _]%NoDup_cons).
  assert (v ∉ l1) as Hv1.
  { intros Hin. apply (Hl1 v Hin). by left. }
  assert (co (vert bm1 v) = co (vert bm v)) as Hco1
    by (apply co_forces_value_notin, Hv1).
  split; [exact Hco1|].
  rewrite forces_value_app, forces_value_cons. fold bm1.
  rewrite co_forces_value_notin by exact Hl2.
  rewrite move_value_active.
  - rewrite Hco1. unfold bm1 at 2. by rewrite weight_forces_value.
  - unfold bm1. by rewrite length_forces_value.
  - unfold bm1. by rewrite weight_forces_value.
Qed.

Lemma collect_verts_split (bm : BMesh) (v : nat) :
  (v < length (verts bm))%nat → active bm v →
  (collect_verts bm).1 =
    filter (active bm) (seq 0 v) ++
    v :: filter (active bm) (seq (S v) (length (verts bm) - S v)).
Proof.
  intros Hlt Hact. rewrite collect_verts_fst. unfold all_verts.
  replace (length (verts bm)) with (v + S (length (verts bm) - S v))%nat
    at 1 by lia.
  rewrite seq_app, filter_app. simpl.
  by rewrite filter_cons_True by exact Hact.
Qed.

(** C1.  An active vertex [v] (weight > 0 at step start) is moved, at its
    turn in the mesh order of the active vertices, from its position to
    position + (attraction * fac_attr + repulsion * fac_rep +
    noise * fac_noise) * dt^2 * weight(v), the force being computed in the
    mesh as the earlier active vertices left it and the weight being the one
    before the decay; its turn finds its position as it was at step start,
    no vertex that is not active is moved, and the mesh that reaches the
    subdivision call has the positions the force loop left.  The loop returns
    for every collision radius that is not negative. *)
Theorem grow_step_position_update (bm : BMesh) (v : nat) :
  (v < length (verts bm))%nat → active bm v →
  let kd := build_kd bm in
  let earlier := filter (active bm) (seq 0 v) in
  (∃ later, (collect_verts bm).1 = earlier ++ v :: later) ∧
  (0 <= collision_radius →
   ∃ moved, calc_forces kd (collect_verts bm).1 bm = Ok moved) ∧
  ∀ moved, calc_forces kd (collect_verts bm).1 bm = Ok moved →
    ∃ bm1 f_rep,
      calc_forces kd earlier bm = Ok bm1 ∧
      calc_vert_repulsion bm1 v kd collision_radius = Ok f_rep ∧
      co (vert bm1 v) = co (vert bm v) ∧
      co (vert moved v) =
        (co (vert bm v) +
         (calc_vert_attraction bm1 v * fac_attr + f_rep * fac_rep +
          noise_vector (co (vert bm v) * noise_scale + seed_vector) * fac_noise)
         * (dt ^ 2 * get_vertex_weight bm v group_index))%V ∧
      (∀ u, ¬ active bm u → co (vert moved u) = co (vert bm u)) ∧
      (∀ bm2 batch, grow_step_core bm = Ok (bm2, batch) →
         ∀ u, co (vert bm2 u) = co (vert moved u)).
Proof.
  intros Hlt Hact kd earlier.
  pose proof (collect_verts_split bm v Hlt Hact) as Hsplit.
  fold earlier in Hsplit.
  assert (get_vertex_weight bm v group_index ≠ 0) as Hw
    by (unfold active in Hact; lra).
  pose proof (NoDup_collect_verts bm) as Hnd. rewrite Hsplit in Hnd.
  destruct (forces_value_at kd _ _ _ bm Hnd Hlt Hw) as [Hco1 Hco].
  split; [by eexists|]. split.
  { intros Hr. eexists. by apply calc_forces_returns. }
  intros moved Hmoved.
  assert (0 <= collision_radius) as Hr.
  { destruct (Rle_dec 0 collision_radius) as [Hr|Hneg]; [exact Hr|].
    rewrite (calc_forces_raises kd _ bm v) in Hmoved;
      [discriminate Hmoved | lra | | exact Hw].
    apply elem_of_collect_verts. by split. }
  pose proof (calc_forces_Ok _ _ _ _ Hmoved) as ->.
  exists (forces_value kd earlier bm),
    (repulsion_value (forces_value kd earlier bm) v kd collision_radius).
  split; [by apply calc_forces_returns|].
  split; [by apply calc_vert_repulsion_nonneg|].
  split; [exact Hco1|]. split.
  { rewrite Hsplit, Hco. unfold force_on. by rewrite Hco1. }
  split.
  { intros u Hu. apply co_forces_value_notin.
    intros [_ Ha]%elem_of_collect_verts. contradiction. }
  intros bm2 batch (_ & Hdecay & _)%grow_step_core_Ok u.
  apply readjust_weights_Ok in Hdecay as (_ & _ & Hco2 & _). apply Hco2.
Qed.

(** C5.  A vertex whose weight is exactly 0 at step start keeps its
    position through the force loop: after any number of turns of the
    loop, and so after all of them.  The loop returns for every collision
    radius that is not negative. *)
Theorem zero_weight_not_moved (bm : BMesh) (u : nat) (done rest : list nat) :
  get_vertex_weight bm u group_index = 0 →
  (collect_verts bm).1 = done ++ rest →
  (∀ bm1, calc_forces (build_kd bm) done bm = Ok bm1 →
     co (vert bm1 u) = co (vert bm u)) ∧
  (∀ moved, calc_forces (build_kd bm) (collect_verts bm).1 bm = Ok moved →
     co (vert moved u) = co (vert bm u)) ∧
  (0 <= collision_radius →
   ∃ bm1 moved,
     calc_forces (build_kd bm) done bm = Ok bm1 ∧
     calc_forces (build_kd bm) (collect_verts bm).1 bm = Ok moved).
Proof.
  intros Hw Hsplit.
  assert (u ∉ (collect_verts bm).1) as Hnotin.
  { intros [_ Ha]%elem_of_collect_verts. unfold active in Ha. lra. }
  assert (u ∉ done) as Hdone.
  { intros Hin. apply Hnotin. rewrite Hsplit. apply elem_of_app. by left. }
  split; [|split].
  - intros bm1 ->%calc_forces_Ok. by apply co_forces_value_notin.
  - intros moved ->%calc_forces_Ok. by apply co_forces_value_notin.
  - intros Hr. eexists _, _. split; by apply calc_forces_returns.
Qed.

(** ** The whole step *)

Lemma grow_step_Ok (bm bm' : BMesh) :
  grow_step bm = Ok bm' ↔
    ∃ bm2 batch,
      grow_step_core bm = Ok (bm2, batch) ∧
      bm' = if bool_decide (0 < length batch)%nat
            then subdivide_edges bm2 batch else bm2.
Proof.
  unfold grow_step. destruct (grow_step_core bm) as [[bm2 batch]|err]; simpl.
  - split.
    + intros H. exists bm2, batch. split; [reflexivity|].
      destruct (bool_decide _); by injection H as <-.
    + intros (bm3 & batch' & Heq & ->). injection Heq as <- <-.
      by destruct (bool_decide _).
  - split; [intros H; discriminate H|].
    intros (bm3 & batch' & Heq & _). discriminate Heq.
Qed.

Lemma grow_step_core_weights (bm bm2 : BMesh) (batch : list nat) (u : nat) :
  grow_step_core bm = Ok (bm2, batch) → (u < length (verts bm))%nat →
  length (verts bm2) = length (verts bm) ∧ edges bm2 = edges bm ∧
  ∃ w', py_pow (get_vertex_weight bm u group_index) weight_decay
          = Ok (PyFloat w') ∧
        deform (vert bm2 u)
          = <[group_index := clamp_f w' 0 1]> (deform (vert bm u)).
Proof.
  intros (_ & Hdecay & _)%grow_step_core_Ok Hlt.
  apply readjust_weights_Ok in Hdecay as (He & Hlen & _ & Hw).
  rewrite length_forces_value in Hlen, Hw. rewrite edges_forces_value in He.
  split; [exact Hlen|]. split; [exact He|].
  destruct (Hw u Hlt) as (w' & Hpow & Hdef).
  rewrite weight_forces_value in Hpow. rewrite deform_forces_value in Hdef.
  by exists w'.
Qed.

Lemma weight_of_insert (bm2 : BMesh) (u : nat) (m : gmap Z R) (w' : R) :
  deform (vert bm2 u) = <[group_index := w']> m →
  get_vertex_weight bm2 u group_index = w'.
Proof.
  intros Hdef. unfold get_vertex_weight. rewrite Hdef.
  by rewrite lookup_insert_eq.
Qed.

Lemma clamp_f_id (w : R) : 0 <= w <= 1 → clamp_f w 0 1 = w.
Proof.
  intros Hw. unfold clamp_f.
  destruct (Rlt_dec w 0); [lra|]. destruct (Rlt_dec 1 w); [lra | reflexivity].
Qed.

Lemma clamp_f_range (w : R) : 0 <= clamp_f w 0 1 <= 1.
Proof.
  unfold clamp_f. destruct (Rlt_dec w 0); [lra|].
  destruct (Rlt_dec 1 w); lra.
Qed.

Lemma clamp_f_pos (w : R) : 0 < w → 0 < clamp_f w 0 1.
Proof.
  intros Hw. unfold clamp_f. destruct (Rlt_dec w 0); [lra|].
  destruct (Rlt_dec 1 w); lra.
Qed.

Lemma clamp_f_above (w : R) : 1 < w → clamp_f w 0 1 = 1.
Proof.
  intros Hw. unfold clamp_f. destruct (Rlt_dec w 0); [lra|].
  destruct (Rlt_dec 1 w); [reflexivity | lra].
Qed.

(** A decay pass that returned on a mesh with a vertex had a group index
    that is not negative. *)
Lemma grow_step_core_key (bm bm2 : BMesh) (batch : list nat) (u : nat) :
  grow_step_core bm = Ok (bm2, batch) → (u < length (verts bm))%nat →
  (0 <= group_index)%Z.
Proof.
  intros (_ & Hdecay & _)%grow_step_core_Ok Hlt.
  unfold readjust_weights, all_verts in Hdecay.
  rewrite length_forces_value in Hdecay.
  destruct (length (verts bm)) as [|n]; [lia|]. simpl in Hdecay.
  destruct (decay_vert _ 0) as [bm1|err] eqn:Hstep; [|discriminate Hdecay].
  by apply decay_vert_key in Hstep.
Qed.

(** C2, as amended.  For every vertex of the mesh at step start, active or
    not, the weight read after one step is the weight read before the step
    to the power [weight_decay], clamped to [[0, 1]] by the write: it is that
    power itself whenever the power lies in [[0, 1]].  This holds in the
    mesh that reaches the subdivision call, and in the mesh the step returns
    when the subdivision call keeps the deform entries of the vertices it is
    given.  Positions do not enter. *)
Theorem weight_after_step (bm : BMesh) (u : nat) :
  (u < length (verts bm))%nat →
  (∀ bm2 batch, grow_step_core bm = Ok (bm2, batch) →
     ∃ w', py_pow (get_vertex_weight bm u group_index) weight_decay
             = Ok (PyFloat w') ∧
           get_vertex_weight bm2 u group_index = clamp_f w' 0 1 ∧
           (0 <= w' <= 1 → get_vertex_weight bm2 u group_index = w')) ∧
  (subdivide_keeps_weights →
   ∀ bm', grow_step bm = Ok bm' →
     ∃ w', py_pow (get_vertex_weight bm u group_index) weight_decay
             = Ok (PyFloat w') ∧
           get_vertex_weight bm' u group_index = clamp_f w' 0 1 ∧
           (0 <= w' <= 1 → get_vertex_weight bm' u group_index = w')).
Proof.
  intros Hlt.
  assert (∀ bm2 batch, grow_step_core bm = Ok (bm2, batch) →
     ∃ w', py_pow (get_vertex_weight bm u group_index) weight_decay
             = Ok (PyFloat w') ∧
           get_vertex_weight bm2 u group_index = clamp_f w' 0 1 ∧
           (0 <= w' <= 1 → get_vertex_weight bm2 u group_index = w'))
    as Hcore.
  { intros bm2 batch Hcore.
    destruct (grow_step_core_weights _ _ _ u Hcore Hlt)
      as (_ & _ & w' & Hpow & Hdef).
    exists w'. rewrite (weight_of_insert _ _ _ _ Hdef).
    split; [exact Hpow|]. split; [reflexivity|]. apply clamp_f_id. }
  split; [exact Hcore|].
  intros Hkeep bm' (bm2 & batch & Hc & ->)%grow_step_Ok.
  destruct (Hcore _ _ Hc) as (w' & Hpow & Hw & Hid).
  exists w'. split; [exact Hpow|].
  assert (get_vertex_weight
            (if bool_decide (0 < length batch)%nat
             then subdivide_edges bm2 batch else bm2) u group_index
          = get_vertex_weight bm2 u group_index) as ->; [|by split].
  destruct (bool_decide _); [|reflexivity].
  unfold get_vertex_weight. rewrite Hkeep; [reflexivity|].
  destruct (grow_step_core_weights _ _ _ u Hc Hlt) as (Hlen & _). lia.
Qed.


Lemma collect_verts_none (bm : BMesh) :
  (∀ u, (u < length (verts bm))%nat → ¬ active bm u) →
  collect_verts bm = ([], ∅).
Proof.
  intros Hnone.
  destruct (collect_verts bm) as [vs es] eqn:Hc. f_equal.
  - change vs with (vs, es).1. rewrite <- Hc.
    destruct (collect_verts bm).1 as [|v l] eqn:Hl; [reflexivity|].
    assert (v ∈ (collect_verts bm).1) as Hv by (rewrite Hl; by left).
    apply elem_of_collect_verts in Hv as [Hlt Ha]. by destruct (Hnone v).
  - apply set_eq. intros e.
    change es with (vs, es).2. rewrite <- Hc, collect_verts_snd.
    split.
    + intros (v & Hlt & Ha & _). by destruct (Hnone v).
    + intros He. by apply not_elem_of_empty in He.
Qed.

(** Without an active vertex the step is the decay pass and hands the
    subdivision scan nothing. *)
Lemma grow_step_inert (bm : BMesh) :
  (∀ u, (u < length (verts bm))%nat → ¬ active bm u) →
  grow_step_core bm = (bm2 ← readjust_weights bm; Ok (bm2, [])) ∧
  grow_step bm = readjust_weights bm.
Proof.
  intros Hnone. pose proof (collect_verts_none bm Hnone) as Hc.
  assert (grow_step_core bm = (bm2 ← readjust_weights bm; Ok (bm2, [])))
    as Hcore.
  { unfold grow_step_core. rewrite Hc, elements_empty. simpl.
    by destruct (readjust_weights bm). }
  split; [exact Hcore|].
  unfold grow_step. rewrite Hcore. by destruct (readjust_weights bm).
Qed.



(** ** When the step returns and when it raises *)

Lemma scan_Ok_each (bm : BMesh) (es acc l : list nat) :
  for_each (λ acc e,
              keep ← wants_subdivide bm e;
              Ok (if keep : bool then acc ++ [e] else acc)) es acc = Ok l →
  ∀ e, e ∈ es → ∃ b, wants_subdivide bm e = Ok b.
Proof.
  revert acc. induction es as [|x es IH]; intros acc; simpl.
  { intros _ e He. by apply elem_of_nil in He. }
  destruct (wants_subdivide bm x) as [keep|err] eqn:Hx; simpl;
    [|intros H; discriminate H].
  intros Hrest e [->|He]%elem_of_cons; [by exists keep|].
  by apply (IH _ Hrest).
Qed.

Lemma wants_subdivide_cases (bm : BMesh) (e : nat) :
  (∃ b, wants_subdivide bm e = Ok b) ∨
  wants_subdivide bm e = Raise ZeroDivisionError.
Proof.
  destruct (Req_dec_T (avg_weight_of bm e) 0) as [H0|Hne].
  { left. exists false. by apply wants_subdivide_zero. }
  destruct (Req_dec_T split_radius 0) as [Hs|Hs].
  - right. by apply wants_subdivide_raise.
  - left. eexists. by apply wants_subdivide_nonzero.
Qed.

(** With a split radius of 0 the scan raises as soon as it meets an edge
    whose average weight is not 0. *)
Lemma scan_raises (bm : BMesh) (es acc : list nat) (e : nat) :
  split_radius = 0 → e ∈ es → avg_weight_of bm e ≠ 0 →
  for_each (λ acc e,
              keep ← wants_subdivide bm e;
              Ok (if keep : bool then acc ++ [e] else acc)) es acc
    = Raise ZeroDivisionError.
Proof.
  intros Hs He Hne. revert acc.
  induction es as [|x es IH]; intros acc; simpl.
  { by apply elem_of_nil in He. }
  destruct (wants_subdivide_cases bm x) as [[b Hx]|Hx]; rewrite Hx; simpl;
    [|reflexivity].
  apply elem_of_cons in He as [->|He]; [|by apply IH].
  rewrite wants_subdivide_raise in Hx by done. discriminate Hx.
Qed.

Lemma py_pow_pos (w w' : R) :
  0 < w → py_pow w weight_decay = Ok (PyFloat w') → 0 < w'.
Proof.
  intros Hw. unfold py_pow.
  destruct (Req_dec_T weight_decay 0) as [_|_].
  { intros H. injection H as <-. lra. }
  destruct (Req_dec_T w 0) as [?|_]; [lra|].
  destruct (Rlt_dec 0 w) as [_|?]; [|lra].
  intros H. injection H as <-. unfold Rpower. apply exp_pos.
Qed.

Lemma grow_step_core_total (bm : BMesh) :
  split_radius ≠ 0 → 0 <= collision_radius → (0 <= group_index)%Z →
  (∀ u, (u < length (verts bm))%nat →
        decays (get_vertex_weight bm u group_index)) →
  ∃ bm2 batch, grow_step_core bm = Ok (bm2, batch).
Proof.
  intros Hs Hr Hkey Hall.
  destruct (readjust_weights_total
              (forces_value (build_kd bm) (collect_verts bm).1 bm) Hkey)
    as [bm2 Hdecay].
  { intros u. rewrite length_forces_value, weight_forces_value. apply Hall. }
  destruct (scan_total bm2 (elements (collect_verts bm).2) [])
    as [batch Hscan].
  { intros e _. destruct (wants_subdivide_cases bm2 e) as [Hb|Hf]; [exact Hb|].
    destruct (Req_dec_T (avg_weight_of bm2 e) 0) as [H0|Hne].
    - rewrite wants_subdivide_zero in Hf by done. discriminate Hf.
    - rewrite wants_subdivide_nonzero in Hf by done. discriminate Hf. }
  exists bm2, batch. apply grow_step_core_Ok.
  split; [by apply calc_forces_returns|]. by split.
Qed.

(** C7, as amended.  On a mesh with a deform layer the step returns a
    mesh, raising nothing, whenever the split radius is not 0, the collision
    radius is not negative, the group index is not negative and every
    vertex weight has a float power [weight ** weight_decay]. *)
Theorem grow_step_completes (bm : BMesh) :
  split_radius ≠ 0 → 0 <= collision_radius → (0 <= group_index)%Z →
  (∀ u, (u < length (verts bm))%nat →
        decays (get_vertex_weight bm u group_index)) →
  ∃ bm', grow_step bm = Ok bm'.
Proof.
  intros Hs Hr Hkey Hall.
  destruct (grow_step_core_total bm Hs Hr Hkey Hall) as (bm2 & batch & Hcore).
  eexists. apply grow_step_Ok. exists bm2, batch. by split.
Qed.

(** With a split radius of 0 the step raises [ZeroDivisionError] on a mesh
    that has an edge between two vertices of positive weight. *)
Lemma grow_step_zero_split_radius (bm : BMesh) (e : nat) :
  split_radius = 0 → 0 <= collision_radius → (0 <= group_index)%Z →
  (∀ u, (u < length (verts bm))%nat →
        decays (get_vertex_weight bm u group_index)) →
  (e < length (edges bm))%nat →
  (ev1 (edge bm e) < length (verts bm))%nat →
  (ev2 (edge bm e) < length (verts bm))%nat →
  0 < get_vertex_weight bm (ev1 (edge bm e)) group_index →
  0 < get_vertex_weight bm (ev2 (edge bm e)) group_index →
  grow_step bm = Raise ZeroDivisionError.
Proof.
  intros Hs Hr Hkey Hall He H1 H2 Hw1 Hw2.
  destruct (readjust_weights_total
              (forces_value (build_kd bm) (collect_verts bm).1 bm) Hkey)
    as [bm2 Hdecay].
  { intros u. rewrite length_forces_value, weight_forces_value. apply Hall. }
  assert (edges_to_subdivide bm2 (elements (collect_verts bm).2)
            = Raise ZeroDivisionError) as Hscan.
  { apply (scan_raises bm2 _ _ e); [exact Hs| |].
    - apply elem_of_elements, collect_verts_snd.
      exists (ev1 (edge bm e)). split; [exact H1|]. split; [exact Hw1|].
      apply elem_of_link_edges. split; [exact He | by left].
    - pose proof (readjust_weights_Ok _ _ Hdecay) as (Hed & _ & _ & Hw).
      rewrite length_forces_value in Hw. rewrite edges_forces_value in Hed.
      unfold avg_weight_of, edge. rewrite Hed. fold (edge bm e).
      destruct (Hw _ H1) as (w1 & Hp1 & Hd1).
      destruct (Hw _ H2) as (w2 & Hp2 & Hd2).
      rewrite weight_forces_value in Hp1, Hp2.
      rewrite (weight_of_insert _ _ _ _ Hd1), (weight_of_insert _ _ _ _ Hd2).
      apply py_pow_pos in Hp1; [|exact Hw1].
      apply py_pow_pos in Hp2; [|exact Hw2].
      apply clamp_f_pos in Hp1. apply clamp_f_pos in Hp2. lra. }
  unfold grow_step, grow_step_core.
  destruct (collect_verts bm) as [vs es]. simpl in *.
  rewrite calc_forces_returns by exact Hr. simpl.
  rewrite Hdecay. simpl. by rewrite Hscan.
Qed.

(** ** The subdivision test *)

Lemma threshold_forms (L W : R) :
  0 < split_radius → 0 < W →
  (L / split_radius > 1 / W ↔ L * W > split_radius).
Proof.
  intros Hs HW.
  assert (L * W - split_radius
          = (L / split_radius - 1 / W) * (split_radius * W)) as Heq
    by (field; lra).
  assert (0 < split_radius * W) as Hpos by nra.
  split; intros H; nra.
Qed.

(** A scanned edge has an endpoint that was active, and the weight the
    scan reads there is positive. *)
Lemma scanned_edge_weight (bm bm2 : BMesh) (batch : list nat) (e : nat) :
  grow_step_core bm = Ok (bm2, batch) → e ∈ (collect_verts bm).2 →
  0 < get_vertex_weight bm2 (ev1 (edge bm2 e)) group_index ∨
  0 < get_vertex_weight bm2 (ev2 (edge bm2 e)) group_index.
Proof.
  intros Hcore (v & Hlt & Ha & He)%collect_verts_snd.
  destruct (grow_step_core_weights _ _ _ v Hcore Hlt)
    as (_ & Hed & w' & Hpow & Hdef).
  apply py_pow_pos in Hpow; [|exact Ha]. apply clamp_f_pos in Hpow.
  rewrite <- (weight_of_insert _ _ _ _ Hdef) in Hpow.
  apply elem_of_link_edges in He as [_ Hv].
  unfold edge in *. rewrite Hed. destruct Hv as [-> | ->]; [by left | by right].
Qed.

Lemma elem_of_batch (bm bm2 : BMesh) (batch : list nat) (e : nat) :
  grow_step_core bm = Ok (bm2, batch) →
  e ∈ batch ↔ e ∈ (collect_verts bm).2 ∧ wants_subdivide bm2 e = Ok true.
Proof.
  intros (_ & _ & Hscan)%grow_step_core_Ok.
  rewrite (edges_to_subdivide_Ok _ _ _ Hscan e). by rewrite elem_of_elements.
Qed.

(** C3, as amended.  The step hands the batch of the scan to the
    subdivision call.  An edge linked to a vertex that was active at step
    start, of length [L] after the force loop and with the same weight [W]
    read by the scan (after the decay) at both endpoints, is in the batch,
    and so subdivided, exactly when [L * W > split_radius], for a positive
    split radius; on the boundary [L * W = split_radius] it is not; an edge
    linked to no active vertex is never in the batch; for [W > 0] the test
    [L / split_radius > 1 / W] is the same as [L * W > split_radius]; and an
    edge whose average weight is 0 is skipped without any division, so never
    subdivided and never an error. *)
Theorem subdivision_threshold (bm bm2 : BMesh) (batch : list nat) :
  grow_step_core bm = Ok (bm2, batch) →
  grow_step bm = Ok (if bool_decide (0 < length batch)%nat
                     then subdivide_edges bm2 batch else bm2) ∧
  (∀ e L W,
     e ∈ (collect_verts bm).2 →
     get_vertex_weight bm2 (ev1 (edge bm2 e)) group_index = W →
     get_vertex_weight bm2 (ev2 (edge bm2 e)) group_index = W →
     calc_length bm2 e = L →
     0 < split_radius →
     (e ∈ batch ↔ L * W > split_radius) ∧
     (L * W = split_radius → e ∉ batch) ∧
     (L * W > split_radius →
      grow_step bm = Ok (subdivide_edges bm2 batch))) ∧
  (∀ e, e ∉ (collect_verts bm).2 → e ∉ batch) ∧
  (∀ L W, 0 < split_radius → 0 < W →
     (L / split_radius > 1 / W ↔ L * W > split_radius)) ∧
  (∀ e, avg_weight_of bm2 e = 0 →
     wants_subdivide bm2 e = Ok false ∧ e ∉ batch).
Proof.
  intros Hcore.
  assert (grow_step bm = Ok (if bool_decide (0 < length batch)%nat
                             then subdivide_edges bm2 batch else bm2))
    as Hstep.
  { apply grow_step_Ok. by exists bm2, batch. }
  split; [exact Hstep|]. split; [|split; [|split]].
  - intros e L W He H1 H2 HL Hs.
    assert (0 < W) as HW.
    { destruct (scanned_edge_weight _ _ _ _ Hcore He) as [H|H]; lra. }
    assert (avg_weight_of bm2 e = W) as Havg.
    { unfold avg_weight_of. rewrite H1, H2. field. }
    assert (e ∈ batch ↔ L * W > split_radius) as Hiff.
    { rewrite (elem_of_batch _ _ _ e Hcore).
      rewrite wants_subdivide_nonzero by (rewrite ?Havg; lra).
      rewrite Havg, HL, <- (threshold_forms L W Hs HW).
      destruct (Rgt_dec _ _) as [Hgt|Hle]; split.
      + by intros _.
      + by intros _.
      + intros [_ H]. discriminate H.
      + intros H. contradiction. }
    split; [exact Hiff|]. split.
    + intros Heq Hin. apply Hiff in Hin. lra.
    + intros Hgt. apply Hiff in Hgt. rewrite Hstep.
      rewrite bool_decide_eq_true_2; [reflexivity|].
      destruct batch; [by apply elem_of_nil in Hgt | simpl; lia].
  - intros e He [Hin _]%(elem_of_batch _ _ _ _ Hcore). contradiction.
  - apply threshold_forms.
  - intros e H0. pose proof (wants_subdivide_zero _ _ H0) as Hskip.
    split; [exact Hskip|]. rewrite (elem_of_batch _ _ _ e Hcore).
    intros [_ H]. rewrite Hskip in H. discriminate H.
Qed.

(** C9, as amended.  The scan runs on the mesh the decay pass returned:
    for an edge with both endpoints in the vertex list, the average it reads
    is the mean of the two weights at step start each raised to
    [weight_decay] and clamped to [[0, 1]] by the write, the length it reads
    is the one the force loop left, and the edge goes into the batch
    exactly when it is linked to an active vertex, this average is not 0
    and length / split_radius > 1 / average. *)
Theorem scan_reads_decayed_weights (bm bm2 : BMesh) (batch : list nat)
    (e : nat) :
  grow_step_core bm = Ok (bm2, batch) →
  (ev1 (edge bm e) < length (verts bm))%nat →
  (ev2 (edge bm e) < length (verts bm))%nat →
  ∃ moved w1 w2,
    calc_forces (build_kd bm) (collect_verts bm).1 bm = Ok moved ∧
    py_pow (get_vertex_weight bm (ev1 (edge bm e)) group_index) weight_decay
      = Ok (PyFloat w1) ∧
    py_pow (get_vertex_weight bm (ev2 (edge bm e)) group_index) weight_decay
      = Ok (PyFloat w2) ∧
    avg_weight_of bm2 e = (clamp_f w1 0 1 + clamp_f w2 0 1) / 2 ∧
    calc_length bm2 e = calc_length moved e ∧
    (e ∈ batch ↔
       e ∈ (collect_verts bm).2 ∧
       (clamp_f w1 0 1 + clamp_f w2 0 1) / 2 ≠ 0 ∧
       calc_length moved e / split_radius
         > 1 / ((clamp_f w1 0 1 + clamp_f w2 0 1) / 2)).
Proof.
  intros Hcore H1 H2.
  destruct (grow_step_core_weights _ _ _ _ Hcore H1)
    as (_ & Hed & w1 & Hp1 & Hd1).
  destruct (grow_step_core_weights _ _ _ _ Hcore H2)
    as (_ & _ & w2 & Hp2 & Hd2).
  pose proof Hcore as (Hforce & Hdecay & Hscan)%grow_step_core_Ok.
  eexists _, w1, w2. split; [exact Hforce|].
  set (moved := forces_value (build_kd bm) (collect_verts bm).1 bm) in *.
  split; [exact Hp1|]. split; [exact Hp2|].
  assert (avg_weight_of bm2 e = (clamp_f w1 0 1 + clamp_f w2 0 1) / 2)
    as Havg.
  { unfold avg_weight_of, edge. rewrite Hed. fold (edge bm e).
    by rewrite (weight_of_insert _ _ _ _ Hd1), (weight_of_insert _ _ _ _ Hd2). }
  assert (calc_length bm2 e = calc_length moved e) as Hlen.
  { apply readjust_weights_Ok in Hdecay as (Hed' & _ & Hco & _).
    unfold calc_length, edge. rewrite Hed'. by rewrite !Hco. }
  split; [exact Havg|]. split; [exact Hlen|].
  rewrite (elem_of_batch _ _ _ e Hcore), <- Havg, <- Hlen.
  split.
  - intros [He Hw]. split; [exact He|].
    destruct (Req_dec_T (avg_weight_of bm2 e) 0) as [H0|Hne].
    { rewrite wants_subdivide_zero in Hw by done. discriminate Hw. }
    split; [exact Hne|].
    destruct (Req_dec_T split_radius 0) as [Hs|Hs].
    { rewrite wants_subdivide_raise in Hw by done. discriminate Hw. }
    rewrite wants_subdivide_nonzero in Hw by done.
    destruct (Rgt_dec _ _) as [Hgt|_]; [exact Hgt | discriminate Hw].
  - intros (He & Hne & Hgt). split; [exact He|].
    destruct (scan_Ok_each _ _ _ _ Hscan e) as [b Hb].
    { by apply elem_of_elements. }
    destruct (Req_dec_T split_radius 0) as [Hs|Hs].
    { rewrite wants_subdivide_raise in Hb by done. discriminate Hb. }
    rewrite wants_subdivide_nonzero by done.
    destruct (Rgt_dec _ _) as [_|Hn]; [reflexivity | contradiction].
Qed.

(** ** Repulsion *)

Lemma vsum_app (l k : list Vector) : vsum (l ++ k) = (vsum l + vsum k)%V.
Proof.
  induction l as [|a l IH]; simpl.
  - by rewrite vadd_zero_l.
  - by rewrite IH, vadd_assoc.
Qed.

Lemma vsum_Permutation (l k : list Vector) : l ≡ₚ k → vsum l = vsum k.
Proof.
  induction 1 as [|a l k _ IH|a b l|l k m _ IH1 _ IH2]; simpl.
  - reflexivity.
  - by rewrite IH.
  - rewrite !vadd_assoc. by rewrite (vadd_comm b a).
  - by rewrite IH1.
Qed.

Lemma insert_by_distance_Permutation x l : insert_by_distance x l ≡ₚ x :: l.
Proof.
  induction l as [|y l IH]; simpl; [reflexivity|].
  destruct (Rle_dec x.2 y.2); [reflexivity|].
  rewrite IH. apply Permutation_swap.
Qed.

Lemma sort_by_distance_Permutation l : foldr insert_by_distance [] l ≡ₚ l.
Proof.
  induction l as [|x l IH]; simpl; [reflexivity|].
  by rewrite insert_by_distance_Permutation, IH.
Qed.

Lemma repulsion_loop (v : nat) (c : Vector) (radius : R)
    (l : list (Vector * nat * R)) (acc : Vector) :
  foldl (λ result '(c', index, distance),
           if bool_decide (index = v) then result
           else
             let direction := normalized (c - c') in
             let magnitude := exp (distance - radius) in
             (result + direction * magnitude)%V) acc l
  = (acc + vsum ((λ q, normalized (c - q.1.1) * exp (q.2 - radius))%V
                   <$> filter (λ q, q.1.2 ≠ v) l))%V.
Proof.
  revert acc. induction l as [|[[c' index] distance] l IH]; intros acc; simpl.
  - by rewrite vadd_zero_r.
  - rewrite IH. case_bool_decide as Hidx.
    + by rewrite filter_cons_False by (simpl; intros Hn; by apply Hn).
    + rewrite filter_cons_True by exact Hidx. simpl. by rewrite vadd_assoc.
Qed.

Lemma in_range_sum (v : nat) (c : Vector) (radius r : R) (kd : KDTree) :
  vsum ((λ q, normalized (c - q.1.1) * exp (q.2 - radius))%V
          <$> filter (λ q : Vector * nat * R, q.1.2 ≠ v)
                (omap (λ p, if Rle_dec (distance_to c p) r
                            then Some (p, distance_to c p) else None) kd))
  = vsum (repulsion_of c radius
            <$> filter (λ p, p.2 ≠ v)
                  (filter (λ p, distance_to c p <= r) kd)).
Proof.
  induction kd as [|p kd IH]; simpl; [reflexivity|].
  destruct (Rle_dec (distance_to c p) r) as [Hin|Hout].
  - rewrite (filter_cons_True (λ p, distance_to c p <= r)) by exact Hin.
    destruct (decide (p.2 = v)) as [Heq|Hne].
    + rewrite filter_cons_False by (simpl; intros Hn; by apply Hn).
      rewrite (filter_cons_False (λ p : Vector * nat, p.2 ≠ v))
        by (simpl; intros Hn; by apply Hn).
      exact IH.
    + rewrite filter_cons_True by exact Hne.
      rewrite (filter_cons_True (λ p : Vector * nat, p.2 ≠ v)) by exact Hne.
      simpl. f_equal. exact IH.
  - rewrite (filter_cons_False (λ p, distance_to c p <= r)) by exact Hout.
    exact IH.
Qed.

(** The repulsion loop adds up one term per repeller. *)
Lemma repulsion_value_sum (bm : BMesh) (v : nat) (kd : KDTree) (radius : R) :
  repulsion_value bm v kd radius =
    vsum (repulsion_of (co (vert bm v)) radius
            <$> repellers kd v (co (vert bm v)) radius).
Proof.
  unfold repulsion_value, repellers.
  rewrite repulsion_loop, vadd_zero_l.
  rewrite <- in_range_sum. apply vsum_Permutation.
  apply fmap_Permutation, filter_Permutation.
  apply sort_by_distance_Permutation.
Qed.

Lemma build_kd_from (bm : BMesh) (l : list nat) (kd : KDTree) :
  foldl (λ kd i, kd_insert kd (co (vert bm i)) i) kd l
  = kd ++ ((λ i, (co (vert bm i), i)) <$> l).
Proof.
  revert kd. induction l as [|i l IH]; intros kd; simpl.
  - by rewrite app_nil_r.
  - rewrite IH. unfold kd_insert. by rewrite <- app_assoc.
Qed.

(** The index of a step holds every vertex of the mesh, at its position
    at step start, under its own index. *)
Lemma build_kd_all (bm : BMesh) :
  build_kd bm = (λ i, (co (vert bm i), i)) <$> all_verts bm.
Proof. unfold build_kd. by rewrite build_kd_from. Qed.

Lemma vlength_sub_sym (a b : Vector) : vlength (a - b) = vlength (b - a).
Proof. unfold vlength; simpl. f_equal. ring. Qed.

(** C4.  The repulsion of a vertex [v] is the sum, over every point of
    the index that lies within [2 * radius] of the position of [v] and
    whose index is not [v] (the vertex itself is left out by its index, not
    by its distance), of normalized(v.co - point) * exp(distance - radius);
    the index of a step holds every vertex of the mesh at step start; and a
    point at distance exactly [radius] adds its direction with the factor
    [exp 0 = 1], a vector of length 1 when that distance is not 0.  This is
    for a radius that is not negative; the range query refuses a negative
    one. *)
Theorem repulsion_formula (bm : BMesh) (v : nat) (kd : KDTree) (radius : R) :
  let c := co (vert bm v) in
  (0 <= radius →
   calc_vert_repulsion bm v kd radius
     = Ok (vsum ((λ p, normalized (c - p.1)
                       * exp (distance_to c p - radius))%V
                   <$> filter (λ p, p.2 ≠ v)
                         (filter (λ p, distance_to c p <= radius * 2) kd)))) ∧
  (radius < 0 → calc_vert_repulsion bm v kd radius = Raise RuntimeError) ∧
  (∀ bm0, build_kd bm0 = (λ i, (co (vert bm0 i), i)) <$> all_verts bm0) ∧
  (∀ p, distance_to c p = radius →
     exp (distance_to c p - radius) = 1 ∧
     (normalized (c - p.1) * exp (distance_to c p - radius))%V
       = normalized (c - p.1) ∧
     (radius ≠ 0 →
      vlength (normalized (c - p.1) * exp (distance_to c p - radius)) = 1)).
Proof.
  intros c. split.
  { intros Hr. rewrite calc_vert_repulsion_nonneg by exact Hr.
    f_equal. apply repulsion_value_sum. }
  split; [apply calc_vert_repulsion_negative|].
  split; [apply build_kd_all|].
  intros p Hd. rewrite Hd.
  replace (radius - radius) with 0 by ring. rewrite exp_0.
  split; [reflexivity|].
  assert ((normalized (c - p.1) * 1)%V = normalized (c - p.1)) as H1 by vec.
  split; [exact H1|]. intros Hne. rewrite H1.
  apply vlength_normalized. rewrite vlength_sub_sym.
  unfold distance_to in Hd. by rewrite Hd.
Qed.

Lemma repulsion_of_coincident (c : Vector) (radius : R) (i : nat) :
  repulsion_of c radius (c, i) = vzero.
Proof.
  unfold repulsion_of; simpl.
  by rewrite vsub_diag, normalized_zero, vscale_zero.
Qed.

Lemma repulsion_value_coincident (bm : BMesh) (v i : nat)
    (kd1 kd2 : KDTree) (radius : R) :
  i ≠ v →
  repulsion_value bm v (kd1 ++ (co (vert bm v), i) :: kd2) radius
    = repulsion_value bm v (kd1 ++ kd2) radius.
Proof.
  intros Hne. set (c := co (vert bm v)).
  rewrite !repulsion_value_sum. fold c. unfold repellers.
  rewrite !(filter_app (λ p, distance_to c p <= radius * 2)).
  rewrite !(filter_app (λ p : Vector * nat, p.2 ≠ v)).
  rewrite !fmap_app, !vsum_app. f_equal.
  destruct (decide (distance_to c (c, i) <= radius * 2)) as [Hin|Hout].
  - rewrite (filter_cons_True (λ p, distance_to c p <= radius * 2))
      by exact Hin.
    rewrite (filter_cons_True (λ p : Vector * nat, p.2 ≠ v)) by exact Hne.
    simpl. by rewrite repulsion_of_coincident, vadd_zero_l.
  - by rewrite (filter_cons_False (λ p, distance_to c p <= radius * 2))
      by exact Hout.
Qed.

(** Two range queries with the same radius raise together, so two
    repulsions with equal values are equal as results. *)
Lemma calc_vert_repulsion_eq (bm bm' : BMesh) (v v' : nat) (kd kd' : KDTree)
    (radius : R) :
  repulsion_value bm v kd radius = repulsion_value bm' v' kd' radius →
  calc_vert_repulsion bm v kd radius = calc_vert_repulsion bm' v' kd' radius.
Proof.
  intros Heq. rewrite !calc_vert_repulsion_cases.
  destruct (Rlt_dec radius 0); [reflexivity | by rewrite Heq].
Qed.

(** C8.  An indexed point of another vertex that lies exactly at the
    position of [v] adds the zero vector to the repulsion of [v]: the
    normalisation of the zero direction is the zero vector, nothing is
    raised for it, and the repulsion is the same with the point in the
    index as without it. *)
Theorem coincident_point_adds_zero (bm : BMesh) (v i : nat)
    (kd1 kd2 : KDTree) (radius distance : R) :
  i ≠ v →
  let c := co (vert bm v) in
  normalized (c - c) = vzero ∧
  (normalized (c - c) * exp (distance - radius))%V = vzero ∧
  calc_vert_repulsion bm v (kd1 ++ (c, i) :: kd2) radius
    = calc_vert_repulsion bm v (kd1 ++ kd2) radius.
Proof.
  intros Hne c.
  assert (normalized (c - c) = vzero) as Hn
    by (by rewrite vsub_diag, normalized_zero).
  split; [exact Hn|]. split; [by rewrite Hn, vscale_zero|].
  by apply calc_vert_repulsion_eq, repulsion_value_coincident.
Qed.

(** With a zero time step the force loop moves nothing. *)
Lemma forces_value_dt_zero kd vs bm u :
  dt = 0 → co (vert (forces_value kd vs bm) u) = co (vert bm u).
Proof.
  intros Hdt. unfold forces_value. revert bm.
  induction vs as [|v vs IH]; intros bm; simpl; [reflexivity|].
  rewrite IH. unfold move_value. destruct (Req_dec_T _ 0); [reflexivity|].
  rewrite vert_set_co. case_decide as H; [|reflexivity].
  destruct H as [-> _]. simpl. rewrite Hdt. vec.
Qed.

(** ** Reading and writing weights *)


(** ** Averages and minima over edge lists *)

Lemma avg_weight_loop (bm : BMesh) (g : Z) (es : list nat) (s : R) (n : nat) :
  foldl (λ acc e,
           foldl (λ '(sum, n) v, (sum + get_vertex_weight bm v g, S n))
                 acc (edge_verts (edge bm e)))
        (s, n) es
  = (s + Rsum (endpoint_weights bm g es),
     (n + length (endpoint_weights bm g es))%nat).
Proof.
  revert s n. induction es as [|e es IH]; intros s n; simpl.
  - f_equal; [unfold Rsum; simpl; ring | lia].
  - rewrite IH. unfold endpoint_weights; simpl. f_equal.
    + unfold Rsum; simpl. ring.
    + lia.
Qed.

Lemma length_endpoint_weights (bm : BMesh) (g : Z) (es : list nat) :
  length (endpoint_weights bm g es) = (2 * length es)%nat.
Proof.
  induction es as [|e es IH]; [reflexivity|].
  change (length (endpoint_weights bm g (e :: es)))
    with (S (S (length (endpoint_weights bm g es)))).
  rewrite IH. simpl. lia.
Qed.

Lemma calc_avg_edge_weight_eq (bm : BMesh) (g : Z) (es : list nat) :
  calc_avg_edge_weight bm es g
  = py_div (Rsum (endpoint_weights bm g es))
           (INR (length (endpoint_weights bm g es))).
Proof.
  unfold calc_avg_edge_weight. rewrite avg_weight_loop. simpl.
  by rewrite Rplus_0_l.
Qed.

Lemma Rsum_bounds (l : list R) (lo hi : R) :
  (∀ x, x ∈ l → lo <= x <= hi) →
  INR (length l) * lo <= Rsum l <= INR (length l) * hi.
Proof.
  induction l as [|a l IH]; intros Hall.
  - unfold Rsum; simpl. lra.
  - assert (lo <= a <= hi) as Ha by (apply Hall; by left).
    destruct IH as [IH1 IH2]; [intros x Hx; apply Hall; by right|].
    change (Rsum (a :: l)) with (a + Rsum l).
    change (length (a :: l)) with (S (length l)). rewrite S_INR. lra.
Qed.

Lemma Rsum_nonneg (l : list R) : (∀ x, x ∈ l → 0 <= x) → 0 <= Rsum l.
Proof.
  induction l as [|a l IH]; intros Hall.
  - unfold Rsum; simpl. lra.
  - change (Rsum (a :: l)) with (a + Rsum l).
    assert (0 <= a) as Ha by (apply Hall; by left).
    assert (0 <= Rsum l) by (apply IH; intros y Hy; apply Hall; by right).
    lra.
Qed.

Lemma Rsum_zero (l : list R) :
  (∀ x, x ∈ l → 0 <= x) → Rsum l = 0 → ∀ x, x ∈ l → x = 0.
Proof.
  induction l as [|a l IH]; intros Hall Hsum x Hx.
  - by apply elem_of_nil in Hx.
  - change (Rsum (a :: l)) with (a + Rsum l) in Hsum.
    assert (0 <= a) as Ha by (apply Hall; by left).
    assert (0 <= Rsum l) as Hl
      by (apply Rsum_nonneg; intros y Hy; apply Hall; by right).
    apply elem_of_cons in Hx as [->|Hx]; [lra|].
    apply IH; [intros y Hy; apply Hall; by right | lra | exact Hx].
Qed.

Lemma mean_defined (l : list R) :
  l ≠ [] → py_div (Rsum l) (INR (length l)) = Ok (Rsum l / INR (length l)).
Proof.
  intros Hne. destruct l as [|a l]; [contradiction|]. unfold py_div.
  destruct (Req_dec_T (INR (length (a :: l))) 0) as [H0|_]; [|reflexivity].
  exfalso. change (length (a :: l)) with (S (length l)) in H0.
  rewrite S_INR in H0. pose proof (pos_INR (length l)). lra.
Qed.

Lemma mean_bounds (l : list R) (lo hi : R) :
  l ≠ [] → (∀ x, x ∈ l → lo <= x <= hi) →
  lo <= Rsum l / INR (length l) <= hi.
Proof.
  intros Hne Hall. pose proof (Rsum_bounds l lo hi Hall) as [H1 H2].
  assert (0 < INR (length l)) as Hpos.
  { apply lt_0_INR. destruct l; [contradiction | simpl; lia]. }
  assert (Rsum l / INR (length l) * INR (length l) = Rsum l) as Hmul
    by (field; lra).
  split; apply (Rmult_le_reg_r (INR (length l))); try exact Hpos;
    rewrite Hmul; lra.
Qed.

Lemma Rsum_lower (l : list R) (lo : R) :
  (∀ x, x ∈ l → lo <= x) → INR (length l) * lo <= Rsum l.
Proof.
  induction l as [|a l IH]; intros Hall.
  - unfold Rsum; simpl. lra.
  - assert (lo <= a) as Ha by (apply Hall; by left).
    assert (INR (length l) * lo <= Rsum l) as IH'
      by (apply IH; intros x Hx; apply Hall; by right).
    change (Rsum (a :: l)) with (a + Rsum l).
    change (length (a :: l)) with (S (length l)). rewrite S_INR. lra.
Qed.

Lemma mean_lower (l : list R) (lo : R) :
  l ≠ [] → (∀ x, x ∈ l → lo <= x) → lo <= Rsum l / INR (length l).
Proof.
  intros Hne Hall. pose proof (Rsum_lower l lo Hall) as H1.
  assert (0 < INR (length l)) as Hpos.
  { apply lt_0_INR. destruct l; [contradiction | simpl; lia]. }
  assert (Rsum l / INR (length l) * INR (length l) = Rsum l) as Hmul
    by (field; lra).
  apply (Rmult_le_reg_r (INR (length l))); [exact Hpos|]. rewrite Hmul. lra.
Qed.

Lemma elem_of_endpoint_weights (bm : BMesh) (g : Z) (es : list nat) (x : R) :
  x ∈ endpoint_weights bm g es ↔
    ∃ e, e ∈ es ∧ (x = get_vertex_weight bm (ev1 (edge bm e)) g ∨
                   x = get_vertex_weight bm (ev2 (edge bm e)) g).
Proof.
  unfold endpoint_weights. rewrite list_elem_of_bind. split.
  - intros (e & Hx & He). exists e. split; [exact He|].
    simpl in Hx. apply elem_of_cons in Hx as [->|Hx]; [by left|].
    apply list_elem_of_singleton in Hx as ->. by right.
  - intros (e & He & Hx). exists e. split; [|exact He]. simpl.
    destruct Hx as [-> | ->]; [by left|]. right. by left.
Qed.

Lemma endpoint_weights_nonempty (bm : BMesh) (g : Z) (es : list nat) :
  es ≠ [] → endpoint_weights bm g es ≠ [].
Proof.
  intros Hne Hnil. apply (f_equal length) in Hnil.
  rewrite length_endpoint_weights in Hnil. destruct es; [contradiction|].
  simpl in Hnil. lia.
Qed.

(** X2.  [calc_avg_edge_weight] raises [ZeroDivisionError] on the empty
    list and otherwise returns the mean of the weights read at all the
    endpoints, two per edge. *)
Theorem calc_avg_edge_weight_mean (bm : BMesh) (g : Z) (es : list nat) :
  calc_avg_edge_weight bm es g =
    match es with
    | [] => Raise ZeroDivisionError
    | _ => Ok (Rsum (endpoint_weights bm g es) / INR (2 * length es))
    end.
Proof.
  rewrite calc_avg_edge_weight_eq. destruct es as [|e es].
  - unfold py_div; simpl. destruct (Req_dec_T 0 0) as [_|H]; [reflexivity|lra].
  - rewrite mean_defined by (by apply endpoint_weights_nonempty).
    by rewrite length_endpoint_weights.
Qed.

(** X3.  On a list that is not empty the average weight lies between any
    two bounds that hold for the weights of all the endpoints. *)
Theorem calc_avg_edge_weight_bounds (bm : BMesh) (g : Z) (es : list nat)
    (lo hi : R) :
  es ≠ [] →
  (∀ e, e ∈ es →
     lo <= get_vertex_weight bm (ev1 (edge bm e)) g <= hi ∧
     lo <= get_vertex_weight bm (ev2 (edge bm e)) g <= hi) →
  ∃ a, calc_avg_edge_weight bm es g = Ok a ∧ lo <= a <= hi.
Proof.
  intros Hne Hall. rewrite calc_avg_edge_weight_eq.
  pose proof (endpoint_weights_nonempty bm g es Hne) as Hne'.
  rewrite mean_defined by exact Hne'. eexists. split; [reflexivity|].
  apply mean_bounds; [exact Hne'|].
  intros x (e & He & [-> | ->])%elem_of_endpoint_weights;
    by destruct (Hall e He).
Qed.

(** X4.  When no endpoint has a negative weight, the average weight of a
    list that is not empty is 0 exactly when every endpoint has weight 0:
    the scan's [avg_weight == 0] then skips only edges with no weight at
    all. *)
Theorem calc_avg_edge_weight_zero (bm : BMesh) (g : Z) (es : list nat) :
  es ≠ [] →
  (∀ e, e ∈ es →
     0 <= get_vertex_weight bm (ev1 (edge bm e)) g ∧
     0 <= get_vertex_weight bm (ev2 (edge bm e)) g) →
  calc_avg_edge_weight bm es g = Ok 0 ↔
    ∀ e, e ∈ es →
      get_vertex_weight bm (ev1 (edge bm e)) g = 0 ∧
      get_vertex_weight bm (ev2 (edge bm e)) g = 0.
Proof.
  intros Hne Hall. rewrite calc_avg_edge_weight_eq.
  pose proof (endpoint_weights_nonempty bm g es Hne) as Hne'.
  rewrite mean_defined by exact Hne'.
  assert (0 < INR (length (endpoint_weights bm g es))) as Hpos.
  { apply lt_0_INR. destruct (endpoint_weights bm g es);
      [contradiction | simpl; lia]. }
  assert (∀ x, x ∈ endpoint_weights bm g es → 0 <= x) as Hnn.
  { intros x (e & He & [-> | ->])%elem_of_endpoint_weights;
      by destruct (Hall e He). }
  split.
  - intros Heq. injection Heq as Heq.
    assert (Rsum (endpoint_weights bm g es) = 0) as Hsum.
    { apply (Rmult_eq_reg_r (/ INR (length (endpoint_weights bm g es)))).
      - unfold Rdiv in Heq. lra.
      - apply Rinv_neq_0_compat. lra. }
    intros e He.
    split; apply (Rsum_zero _ Hnn Hsum), elem_of_endpoint_weights;
      exists e; (split; [exact He|]); [by left | by right].
  - intros Hzero. f_equal.
    assert (Rsum (endpoint_weights bm g es) = 0) as Hsum.
    { destruct (Rsum_bounds (endpoint_weights bm g es) 0 0) as [H1 H2]; [|lra].
      intros x (e & He & [-> | ->])%elem_of_endpoint_weights;
        destruct (Hzero e He) as [H1 H2]; lra. }
    rewrite Hsum. unfold Rdiv. ring.
Qed.

Lemma avg_length_loop (bm : BMesh) (es : list nat) (s : R) :
  foldl (λ sum e, sum + calc_length bm e) s es
  = s + Rsum (calc_length bm <$> es).
Proof.
  revert s. induction es as [|e es IH]; intros s.
  - unfold Rsum; simpl. ring.
  - cbn [foldl]. rewrite IH, fmap_cons.
    change (Rsum (calc_length bm e :: (calc_length bm <$> es)))
      with (calc_length bm e + Rsum (calc_length bm <$> es)).
    ring.
Qed.

Lemma calc_length_nonneg (bm : BMesh) (e : nat) : 0 <= calc_length bm e.
Proof. apply vlength_nonneg. Qed.

Lemma calc_avg_edge_length_eq (bm : BMesh) (es : list nat) :
  calc_avg_edge_length bm es
  = py_div (Rsum (calc_length bm <$> es)) (INR (length (calc_length bm <$> es))).
Proof.
  unfold calc_avg_edge_length. rewrite avg_length_loop, length_fmap.
  by rewrite Rplus_0_l.
Qed.

(** X5.  [calc_avg_edge_length] raises [ZeroDivisionError] on the empty
    list and otherwise returns the mean of the edge lengths, which is not
    negative. *)
Theorem calc_avg_edge_length_mean (bm : BMesh) (es : list nat) :
  match es with
  | [] => calc_avg_edge_length bm es = Raise ZeroDivisionError
  | _ =>
      calc_avg_edge_length bm es
        = Ok (Rsum (calc_length bm <$> es) / INR (length es)) ∧
      0 <= Rsum (calc_length bm <$> es) / INR (length es)
  end.
Proof.
  rewrite calc_avg_edge_length_eq. destruct es as [|e es].
  - unfold py_div; simpl. destruct (Req_dec_T 0 0) as [_|H]; [reflexivity|lra].
  - rewrite mean_defined by discriminate. rewrite length_fmap.
    split; [reflexivity|]. rewrite <- (length_fmap (calc_length bm)).
    apply mean_lower; [discriminate|].
    intros x (e' & -> & _)%list_elem_of_fmap. apply calc_length_nonneg.
Qed.

Lemma min_length_loop (bm : BMesh) (es : list nat) (v0 : R) :
  let m := foldl (λ val e, Rmin (calc_length bm e) val) v0 es in
  m <= v0 ∧ (∀ e, e ∈ es → m <= calc_length bm e) ∧
  (m = v0 ∨ ∃ e, e ∈ es ∧ m = calc_length bm e).
Proof.
  revert v0. induction es as [|e es IH]; intros v0; simpl.
  - split; [lra|]. split; [|by left].
    intros e He. by apply elem_of_nil in He.
  - destruct (IH (Rmin (calc_length bm e) v0)) as (H1 & H2 & H3).
    pose proof (Rmin_l (calc_length bm e) v0) as Hl.
    pose proof (Rmin_r (calc_length bm e) v0) as Hr.
    split; [lra|]. split.
    + intros e' [->|He']%elem_of_cons; [lra | by apply H2].
    + destruct H3 as [H3|(e' & He' & H3)].
      * destruct (Rle_dec (calc_length bm e) v0) as [Hle|Hgt].
        -- rewrite (Rmin_left _ _ Hle) in H3 at 2.
           right. exists e. split; [by left | exact H3].
        -- rewrite (Rmin_right (calc_length bm e) v0) in H3 at 2 by lra.
           by left.
      * right. exists e'. split; [by right | exact H3].
Qed.

(** X6.  [calc_min_edge_length] never raises; its result is between 0 and
    the starting value 100000, is at most the length of every edge of the
    list, and is either 100000 or the length of one of the edges: on the
    empty list, and on a list of edges none of which is shorter than 100000,
    it is 100000. *)
Theorem calc_min_edge_length_spec (bm : BMesh) (es : list nat) :
  let m := calc_min_edge_length bm es in
  0 <= m <= 100000 ∧
  (∀ e, e ∈ es → m <= calc_length bm e) ∧
  (m = 100000 ∨ ∃ e, e ∈ es ∧ m = calc_length bm e) ∧
  ((∀ e, e ∈ es → 100000 <= calc_length bm e) → m = 100000).
Proof.
  intros m. destruct (min_length_loop bm es 100000) as (H1 & H2 & H3).
  fold (calc_min_edge_length bm es) in H1, H2, H3. fold m in H1, H2, H3.
  assert (0 <= m) as H0.
  { destruct H3 as [->|(e & _ & ->)]; [lra | apply calc_length_nonneg]. }
  split; [lra|]. split; [exact H2|]. split; [exact H3|].
  intros Hlong. destruct H3 as [H3|(e & He & H3)]; [exact H3|].
  specialize (Hlong e He). lra.
Qed.

(** X7.  On a list that is not empty the minimum edge length is at most the
    average edge length. *)
Theorem calc_min_le_avg_edge_length (bm : BMesh) (es : list nat) :
  es ≠ [] →
  ∃ a, calc_avg_edge_length bm es = Ok a ∧ calc_min_edge_length bm es <= a.
Proof.
  intros Hne. rewrite calc_avg_edge_length_eq.
  assert (calc_length bm <$> es ≠ []) as Hne'.
  { intros Hnil. apply fmap_nil_inv in Hnil. contradiction. }
  rewrite mean_defined by exact Hne'. eexists. split; [reflexivity|].
  apply mean_lower; [exact Hne'|].
  intros x (e & -> & He)%list_elem_of_fmap.
  by apply (min_length_loop bm es 100000).
Qed.

(** ** Attraction *)

Lemma attraction_loop (bm : BMesh) (v : nat) (l : list nat) (acc : Vector) :
  foldl (λ result e,
           match other_vert (edge bm e) v with
           | None => result
           | Some other => (result + (co (vert bm other) - co (vert bm v)))%V
           end) acc l
  = (acc + vsum ((λ o, co (vert bm o) - co (vert bm v))%V
                   <$> omap (λ e, other_vert (edge bm e) v) l))%V.
Proof.
  revert acc. induction l as [|e l IH]; intros acc.
  - simpl. by rewrite vadd_zero_r.
  - cbn [foldl omap list_omap]. rewrite IH.
    destruct (other_vert (edge bm e) v) as [o|]; [|reflexivity].
    rewrite fmap_cons. cbn [vsum foldr]. by rewrite vadd_assoc.
Qed.

(** The attraction adds up one spring per neighbour. *)
Lemma calc_vert_attraction_sum (bm : BMesh) (v : nat) :
  calc_vert_attraction bm v
  = vsum ((λ o, co (vert bm o) - co (vert bm v))%V <$> neighbours bm v).
Proof.
  unfold calc_vert_attraction, neighbours.
  by rewrite attraction_loop, vadd_zero_l.
Qed.

Lemma vsum_sub_const (c : Vector) (l : list Vector) :
  vsum ((λ x, x - c)%V <$> l) = (vsum l - c * INR (length l))%V.
Proof.
  induction l as [|a l IH].
  - simpl. vec.
  - rewrite fmap_cons. cbn [vsum foldr]. fold (vsum l).
    fold (vsum ((λ x, x - c)%V <$> l)). rewrite IH.
    change (length (a :: l)) with (S (length l)). rewrite S_INR. vec.
Qed.

Lemma length_neighbours (bm : BMesh) (v : nat) :
  length (neighbours bm v) = length (link_edges bm v).
Proof.
  unfold neighbours.
  assert (∀ e, e ∈ link_edges bm v → is_Some (other_vert (edge bm e) v))
    as Hsome.
  { intros e [_ He]%elem_of_link_edges. unfold other_vert.
    destruct He as [He|He].
    - rewrite bool_decide_eq_true_2 by exact He. by eexists.
    - destruct (bool_decide (ev1 (edge bm e) = v)); [by eexists|].
      rewrite bool_decide_eq_true_2 by exact He. by eexists. }
  induction (link_edges bm v) as [|e l IH]; [reflexivity|].
  cbn [omap list_omap]. destruct (Hsome e) as [o ->]; [by left|].
  simpl. f_equal. apply IH. intros e' He'. apply Hsome. by right.
Qed.

(** X8.  The attraction of a vertex is the sum of the positions of its
    neighbours, one per linked edge, minus its own position times the number
    of linked edges; for a vertex with no linked edge it is the zero
    vector. *)
Theorem calc_vert_attraction_closed_form (bm : BMesh) (v : nat) :
  calc_vert_attraction bm v
    = (vsum ((λ o, co (vert bm o)) <$> neighbours bm v)
       - co (vert bm v) * INR (length (link_edges bm v)))%V ∧
  (link_edges bm v = [] → calc_vert_attraction bm v = vzero).
Proof.
  split.
  - rewrite calc_vert_attraction_sum, <- length_neighbours.
    rewrite <- (length_fmap (λ o, co (vert bm o))), <- vsum_sub_const.
    by rewrite <- list_fmap_compose.
  - intros Hnil. unfold calc_vert_attraction. by rewrite Hnil.
Qed.

Lemma neighbours_set_co (bm : BMesh) (u v : nat) (c : Vector) :
  neighbours (set_co bm u c) v = neighbours bm v.
Proof. reflexivity. Qed.

(** X10.  The attraction of [v] reads only the positions of [v] and of its
    neighbours: moving any other vertex leaves it as it is. *)
Theorem calc_vert_attraction_local (bm : BMesh) (u v : nat) (c : Vector) :
  u ≠ v → u ∉ neighbours bm v →
  calc_vert_attraction (set_co bm u c) v = calc_vert_attraction bm v.
Proof.
  intros Hne Hnotin. rewrite !calc_vert_attraction_sum, neighbours_set_co.
  f_equal. apply list_fmap_ext. intros i o Ho.
  assert (o ≠ u) as Hou.
  { intros ->. apply Hnotin. by apply list_elem_of_lookup_2 in Ho. }
  by rewrite !co_set_co_ne.
Qed.

Lemma vert_translate (t : Vector) (bm : BMesh) (u : nat) :
  (u < length (verts bm))%nat →
  co (vert (translate t bm) u) = (co (vert bm u) + t)%V.
Proof.
  intros Hlt. unfold vert, translate; simpl.
  rewrite !list_lookup_total_alt, list_lookup_fmap.
  destruct (verts bm !! u) as [x|] eqn:Hu; [reflexivity|].
  apply lookup_ge_None in Hu. lia.
Qed.

(** X9.  Attraction does not change when the mesh is moved as a whole, for
    a vertex of the mesh whose neighbours are vertices of the mesh. *)
Theorem calc_vert_attraction_translate (t : Vector) (bm : BMesh) (v : nat) :
  (v < length (verts bm))%nat →
  (∀ o, o ∈ neighbours bm v → (o < length (verts bm))%nat) →
  calc_vert_attraction (translate t bm) v = calc_vert_attraction bm v.
Proof.
  intros Hlt Hwf. rewrite !calc_vert_attraction_sum.
  change (neighbours (translate t bm) v) with (neighbours bm v).
  f_equal. apply list_fmap_ext. intros i o Ho.
  apply list_elem_of_lookup_2 in Ho.
  rewrite !vert_translate by auto. vec.
Qed.

(** ** More on repulsion *)

Lemma repulsion_value_insertion_order (bm : BMesh) (v : nat)
    (kd kd' : KDTree) (radius : R) :
  kd ≡ₚ kd' →
  repulsion_value bm v kd radius = repulsion_value bm v kd' radius.
Proof.
  intros Hperm. rewrite !repulsion_value_sum. apply vsum_Permutation.
  apply fmap_Permutation. unfold repellers.
  by apply filter_Permutation, filter_Permutation.
Qed.

Lemma repulsion_value_ignores (bm : BMesh) (v : nat) (p : Vector * nat)
    (kd1 kd2 : KDTree) (radius : R) :
  p.2 = v ∨ distance_to (co (vert bm v)) p > radius * 2 →
  repulsion_value bm v (kd1 ++ p :: kd2) radius
    = repulsion_value bm v (kd1 ++ kd2) radius.
Proof.
  intros Hp. rewrite !repulsion_value_sum. unfold repellers.
  set (c := co (vert bm v)) in *.
  rewrite !(filter_app (λ p, distance_to c p <= radius * 2)).
  rewrite !(filter_app (λ p : Vector * nat, p.2 ≠ v)).
  do 3 f_equal.
  destruct (decide (distance_to c p <= radius * 2)) as [Hin|Hout].
  - rewrite (filter_cons_True (λ p, distance_to c p <= radius * 2))
      by exact Hin.
    destruct Hp as [Hp|Hp]; [|lra].
    by rewrite (filter_cons_False (λ p : Vector * nat, p.2 ≠ v))
      by (intros Hn; by apply Hn).
  - by rewrite (filter_cons_False (λ p, distance_to c p <= radius * 2))
      by exact Hout.
Qed.

(** X11.  The repulsion does not depend on the order in which the points
    were inserted into the index. *)
Theorem calc_vert_repulsion_insertion_order (bm : BMesh) (v : nat)
    (kd kd' : KDTree) (radius : R) :
  kd ≡ₚ kd' →
  calc_vert_repulsion bm v kd radius = calc_vert_repulsion bm v kd' radius.
Proof.
  intros Hperm. by apply calc_vert_repulsion_eq, repulsion_value_insertion_order.
Qed.

(** X12.  An indexed point changes nothing in the repulsion of [v] when it
    carries the index of [v] itself, wherever it lies, or when it lies
    farther than [2 * radius] from [v]. *)
Theorem calc_vert_repulsion_ignores (bm : BMesh) (v : nat) (p : Vector * nat)
    (kd1 kd2 : KDTree) (radius : R) :
  p.2 = v ∨ distance_to (co (vert bm v)) p > radius * 2 →
  calc_vert_repulsion bm v (kd1 ++ p :: kd2) radius
    = calc_vert_repulsion bm v (kd1 ++ kd2) radius.
Proof.
  intros Hp. by apply calc_vert_repulsion_eq, repulsion_value_ignores.
Qed.

Lemma repulsion_value_co (bm bm' : BMesh) (v : nat) (kd : KDTree)
    (radius : R) :
  co (vert bm' v) = co (vert bm v) →
  repulsion_value bm' v kd radius = repulsion_value bm v kd radius.
Proof. intros Hco. unfold repulsion_value. by rewrite Hco. Qed.

(** X14.  During the force loop the repulsion of a vertex whose turn has not
    come yet is the one of the mesh at step start, whatever vertices moved
    before: the index is the snapshot taken before the loop, and only the
    vertex's own position is read from the mesh. *)
Theorem repulsion_reads_snapshot (bm bm1 : BMesh) (v : nat) (vs : list nat)
    (kd0 kd : KDTree) (radius : R) :
  v ∉ vs →
  calc_forces kd0 vs bm = Ok bm1 →
  calc_vert_repulsion bm1 v kd radius = calc_vert_repulsion bm v kd radius.
Proof.
  intros Hv ->%calc_forces_Ok.
  apply calc_vert_repulsion_eq, repulsion_value_co.
  by apply co_forces_value_notin.
Qed.

Lemma vlength_neg (a : Vector) : vlength (vzero - a) = vlength a.
Proof. unfold vlength; simpl. f_equal. ring. Qed.

Lemma normalized_neg (a : Vector) :
  normalized (vzero - a) = (vzero - normalized a)%V.
Proof.
  unfold normalized. rewrite vlength_neg.
  destruct (Req_dec_T (vlength a) 0); vec.
Qed.

(** The term of [q] in the repulsion of [p] is the opposite of the term of
    [p] in the repulsion of [q]. *)
Lemma repulsion_of_opposite (a b : Vector) (i j : nat) (radius : R) :
  (repulsion_of a radius (b, j) + repulsion_of b radius (a, i))%V = vzero.
Proof.
  unfold repulsion_of, distance_to; simpl.
  replace (a - b)%V with (vzero - (b - a))%V by vec.
  rewrite normalized_neg, (vlength_neg (b - a)%V). vec.
Qed.

Lemma vsum_fmap_add {A : Type} (f h : A → Vector) (l : list A) :
  vsum ((λ a, f a + h a)%V <$> l) = (vsum (f <$> l) + vsum (h <$> l))%V.
Proof.
  induction l as [|a l IH]; [simpl; vec|].
  rewrite !fmap_cons. cbn [vsum foldr].
  fold (vsum ((λ a, f a + h a)%V <$> l)). fold (vsum (f <$> l)).
  fold (vsum (h <$> l)). rewrite IH. vec.
Qed.

Lemma vsum_fmap_zero {A : Type} (f : A → Vector) (l : list A) :
  (∀ a, f a = vzero) → vsum (f <$> l) = vzero.
Proof.
  intros Hz. induction l as [|a l IH]; [reflexivity|].
  rewrite fmap_cons. cbn [vsum foldr]. fold (vsum (f <$> l)).
  rewrite IH, Hz. vec.
Qed.

(** Terms that cancel in pairs add up to zero over any square. *)
Lemma vsum_antisymmetric {A : Type} (g : A → A → Vector) (l : list A) :
  (∀ a b, (g a b + g b a)%V = vzero) →
  vsum ((λ a, vsum (g a <$> l)) <$> l) = vzero.
Proof.
  intros Hanti.
  assert (∀ a, g a a = vzero) as Hdiag.
  { intros a. specialize (Hanti a a).
    apply (f_equal vx) in Hanti as Hx. apply (f_equal vy) in Hanti as Hy.
    apply (f_equal vz) in Hanti as Hz. simpl in Hx, Hy, Hz.
    apply vector_eq; simpl; lra. }
  induction l as [|x l IH]; [reflexivity|].
  rewrite fmap_cons. cbn [vsum foldr].
  fold (vsum ((λ a, vsum (g a <$> x :: l)) <$> l)).
  fold (vsum (g x <$> x :: l)).
  replace (vsum ((λ a, vsum (g a <$> x :: l)) <$> l))
    with (vsum ((λ a, g a x + vsum (g a <$> l))%V <$> l)) by reflexivity.
  rewrite vsum_fmap_add, IH.
  rewrite fmap_cons. cbn [vsum foldr]. fold (vsum (g x <$> l)).
  rewrite Hdiag.
  assert ((vsum (g x <$> l) + vsum ((λ a, g a x) <$> l))%V = vzero) as Hpair.
  { rewrite <- vsum_fmap_add. apply vsum_fmap_zero. intros a. apply Hanti. }
  apply (f_equal vx) in Hpair as Hx. apply (f_equal vy) in Hpair as Hy.
  apply (f_equal vz) in Hpair as Hz. simpl in Hx, Hy, Hz.
  apply vector_eq; simpl; lra.
Qed.

(** The repulsion term of the vertex [u] on the vertex [v] of a mesh, zero
    when [u] is [v] or is out of range. *)
Lemma repulsion_as_terms (bm : BMesh) (v : nat) (radius : R) (l : list nat) :
  vsum (repulsion_of (co (vert bm v)) radius
          <$> repellers ((λ i, (co (vert bm i), i)) <$> l) v
                (co (vert bm v)) radius)
  = vsum ((λ u, if decide (u ≠ v ∧
                           vlength (co (vert bm u) - co (vert bm v))
                             <= radius * 2)
                then repulsion_of (co (vert bm v)) radius (co (vert bm u), u)
                else vzero) <$> l).
Proof.
  unfold repellers. induction l as [|u l IH]; [reflexivity|].
  rewrite !fmap_cons. cbn [vsum foldr].
  set (c := co (vert bm v)) in *.
  destruct (decide (distance_to c (co (vert bm u), u) <= radius * 2))
    as [Hin|Hout].
  - rewrite (filter_cons_True (λ p, distance_to c p <= radius * 2))
      by exact Hin.
    destruct (decide (u = v)) as [Heq|Hne].
    + rewrite (filter_cons_False (λ p : Vector * nat, p.2 ≠ v))
        by (simpl; intros Hn; by apply Hn).
      rewrite decide_False by (intros [Hn _]; by apply Hn).
      rewrite vadd_zero_l. exact IH.
    + rewrite (filter_cons_True (λ p : Vector * nat, p.2 ≠ v)) by exact Hne.
      rewrite decide_True by (split; [exact Hne | exact Hin]).
      rewrite fmap_cons. cbn [vsum foldr]. f_equal. exact IH.
  - rewrite (filter_cons_False (λ p, distance_to c p <= radius * 2))
      by exact Hout.
    rewrite decide_False by (intros [_ Hn]; by apply Hout).
    rewrite vadd_zero_l. exact IH.
Qed.

Lemma repulsion_values_cancel (bm : BMesh) (radius : R) :
  vsum ((λ v, repulsion_value bm v (build_kd bm) radius) <$> all_verts bm)
    = vzero.
Proof.
  rewrite build_kd_all.
  erewrite list_fmap_ext; last first.
  { intros i v _. rewrite repulsion_value_sum.
    apply (repulsion_as_terms bm v radius (all_verts bm)). }
  apply (vsum_antisymmetric
           (λ v u, if decide (u ≠ v ∧
                              vlength (co (vert bm u) - co (vert bm v))
                                <= radius * 2)
                   then repulsion_of (co (vert bm v)) radius
                          (co (vert bm u), u)
                   else vzero)).
  intros a b.
  destruct (decide (b ≠ a ∧ vlength (co (vert bm b) - co (vert bm a))
                            <= radius * 2)) as [[Hne Hd]|Hn].
  - rewrite decide_True.
    + apply repulsion_of_opposite.
    + split; [by apply not_eq_sym|]. by rewrite vlength_sub_sym.
  - rewrite decide_False; [vec|].
    intros [Hne Hd]. apply Hn. split; [by apply not_eq_sym|].
    by rewrite vlength_sub_sym.
Qed.

(** X13.  Computed for every vertex of a mesh against the index of that
    mesh, with a radius that is not negative, the repulsions are all
    returned and add up to the zero vector: what [u] adds to [v] is the
    opposite of what [v] adds to [u].  With a negative radius every one of
    them raises [RuntimeError]. *)
Theorem repulsions_cancel (bm : BMesh) (radius : R) :
  (0 <= radius →
   ∃ f : nat → Vector,
     (∀ v, calc_vert_repulsion bm v (build_kd bm) radius = Ok (f v)) ∧
     vsum (f <$> all_verts bm) = vzero) ∧
  (radius < 0 →
   ∀ v, calc_vert_repulsion bm v (build_kd bm) radius = Raise RuntimeError).
Proof.
  split.
  - intros Hr. exists (λ v, repulsion_value bm v (build_kd bm) radius).
    split; [intros v; by apply calc_vert_repulsion_nonneg|].
    apply repulsion_values_cancel.
  - intros Hr v. by apply calc_vert_repulsion_negative.
Qed.

(** ** More on the whole step *)

Lemma vert_out_of_range (bm : BMesh) (u : nat) :
  (length (verts bm) <= u)%nat → vert bm u = mkVert vzero ∅.
Proof.
  intros Hge. unfold vert. rewrite list_lookup_total_alt.
  by rewrite lookup_ge_None_2.
Qed.

Lemma grow_step_core_shape (bm bm2 : BMesh) (batch : list nat) :
  grow_step_core bm = Ok (bm2, batch) →
  length (verts bm2) = length (verts bm) ∧ edges bm2 = edges bm.
Proof.
  intros (_ & Hdecay & _)%grow_step_core_Ok.
  apply readjust_weights_Ok in Hdecay as (He & Hl & _).
  by rewrite length_forces_value in Hl; rewrite edges_forces_value in He.
Qed.

(** X15.  Up to the subdivision call the step keeps the number of vertices
    and the edges, and it leaves the weights of every other vertex group as
    they are. *)
Theorem grow_step_core_frame (bm bm2 : BMesh) (batch : list nat) :
  grow_step_core bm = Ok (bm2, batch) →
  length (verts bm2) = length (verts bm) ∧ edges bm2 = edges bm ∧
  ∀ u g, g ≠ group_index →
    deform (vert bm2 u) !! g = deform (vert bm u) !! g ∧
    get_vertex_weight bm2 u g = get_vertex_weight bm u g.
Proof.
  intros Hcore.
  destruct (grow_step_core_shape _ _ _ Hcore) as [Hlen Hed].
  split; [exact Hlen|]. split; [exact Hed|]. intros u g Hg.
  assert (deform (vert bm2 u) !! g = deform (vert bm u) !! g) as Hentry.
  { destruct (decide (u < length (verts bm))%nat) as [Hlt|Hge].
    - destruct (grow_step_core_weights _ _ _ u Hcore Hlt)
        as (_ & _ & w' & _ & ->).
      by rewrite lookup_insert_ne.
    - by rewrite !vert_out_of_range by lia. }
  split; [exact Hentry|]. unfold get_vertex_weight. by rewrite Hentry.
Qed.

Lemma py_pow_exponent_one (w : R) : py_pow w 1 = Ok (PyFloat w).
Proof.
  unfold py_pow.
  destruct (Req_dec_T 1 0) as [?|_]; [lra|].
  destruct (Req_dec_T w 0) as [->|Hw].
  { destruct (Rlt_dec 1 0) as [?|_]; [lra | reflexivity]. }
  destruct (Rlt_dec 0 w) as [Hpos|_]; [by rewrite Rpower_1|].
  assert (Int_part 1 = 1%Z) as Hint.
  { symmetry. apply Int_part_spec. lra. }
  destruct (is_integer_dec 1) as [_|Hn].
  - rewrite Hint. by rewrite powerRZ_1.
  - exfalso. apply Hn. unfold is_integer. by rewrite Hint.
Qed.

Lemma py_pow_exponent_zero (w : R) : py_pow w 0 = Ok (PyFloat 1).
Proof.
  unfold py_pow. destruct (Req_dec_T 0 0) as [_|?]; [reflexivity | lra].
Qed.

Lemma exp_le (x y : R) : x <= y → exp x <= exp y.
Proof.
  intros [Hlt| ->]; [|lra]. left. by apply exp_increasing.
Qed.

Lemma ln_nonpos (w : R) : 0 < w <= 1 → ln w <= 0.
Proof.
  intros [Hpos [Hlt| ->]]; [|rewrite ln_1; lra].
  rewrite <- ln_1. left. by apply ln_increasing.
Qed.

(** The float power on [[0, 1]] under an exponent that is not negative. *)
Lemma py_pow_unit_interval (w d : R) :
  0 <= w <= 1 → 0 <= d →
  ∃ w', py_pow w d = Ok (PyFloat w') ∧ 0 <= w' <= 1 ∧
        (1 <= d → w' <= w) ∧ (d <= 1 → w <= w').
Proof.
  intros Hw Hd. unfold py_pow.
  destruct (Req_dec_T d 0) as [->|Hd0].
  { exists 1. repeat split; lra. }
  destruct (Req_dec_T w 0) as [->|Hw0].
  { destruct (Rlt_dec d 0) as [?|_]; [lra|]. exists 0. repeat split; lra. }
  destruct (Rlt_dec 0 w) as [Hpos|?]; [|lra].
  eexists. split; [reflexivity|]. unfold Rpower.
  pose proof (ln_nonpos w ltac:(lra)) as Hln.
  pose proof (exp_ln w Hpos) as Hexp.
  pose proof (exp_pos (d * ln w)) as Hp.
  split; [split; [lra|]|split].
  - rewrite <- exp_0. apply exp_le. nra.
  - intros H1. rewrite <- Hexp at 2. apply exp_le. nra.
  - intros H1. rewrite <- Hexp at 1. apply exp_le. nra.
Qed.

(** X17.  With the decay exponent 1 a step leaves every weight in [[0, 1]]
    as it reads; in general a vertex of the mesh reads its old weight
    clamped to [[0, 1]] afterwards, and a vertex out of range reads as
    before. *)
Theorem decay_exponent_one (bm bm2 : BMesh) (batch : list nat) (u : nat) :
  weight_decay = 1 → grow_step_core bm = Ok (bm2, batch) →
  (0 <= get_vertex_weight bm u group_index <= 1 →
   get_vertex_weight bm2 u group_index = get_vertex_weight bm u group_index) ∧
  ((u < length (verts bm))%nat →
   get_vertex_weight bm2 u group_index
     = clamp_f (get_vertex_weight bm u group_index) 0 1) ∧
  ((length (verts bm) <= u)%nat →
   get_vertex_weight bm2 u group_index = get_vertex_weight bm u group_index).
Proof.
  intros Hd Hcore.
  assert ((length (verts bm) <= u)%nat →
          get_vertex_weight bm2 u group_index
            = get_vertex_weight bm u group_index) as Hout.
  { intros Hge. destruct (grow_step_core_shape _ _ _ Hcore) as [Hlen _].
    unfold get_vertex_weight. by rewrite !vert_out_of_range by lia. }
  assert ((u < length (verts bm))%nat →
          get_vertex_weight bm2 u group_index
            = clamp_f (get_vertex_weight bm u group_index) 0 1) as Hin.
  { intros Hlt.
    destruct (grow_step_core_weights _ _ _ u Hcore Hlt)
      as (_ & _ & w' & Hpow & Hdef).
    rewrite Hd, py_pow_exponent_one in Hpow. injection Hpow as <-.
    by rewrite (weight_of_insert _ _ _ _ Hdef). }
  split; [|split; [exact Hin | exact Hout]].
  intros Hw. destruct (decide (u < length (verts bm))%nat) as [Hlt|Hge].
  - rewrite Hin by exact Hlt. by apply clamp_f_id.
  - apply Hout. lia.
Qed.

(** X18.  With the decay exponent 0 a step gives every vertex of the mesh
    the weight 1, also a vertex whose weight was 0 or that had no entry: all
    vertices are active afterwards. *)
Theorem decay_exponent_zero (bm bm2 : BMesh) (batch : list nat) (u : nat) :
  weight_decay = 0 → grow_step_core bm = Ok (bm2, batch) →
  (u < length (verts bm))%nat →
  get_vertex_weight bm2 u group_index = 1 ∧ active bm2 u.
Proof.
  intros Hd Hcore Hlt.
  destruct (grow_step_core_weights _ _ _ u Hcore Hlt)
    as (_ & _ & w' & Hpow & Hdef).
  rewrite Hd, py_pow_exponent_zero in Hpow. injection Hpow as <-.
  unfold active. rewrite (weight_of_insert _ _ _ _ Hdef).
  rewrite clamp_f_id by lra. split; lra.
Qed.

(** X19.  Under an exponent that is not negative a weight in [[0, 1]] stays
    in [[0, 1]]; it does not grow when the exponent is at least 1, and does
    not shrink when the exponent is at most 1. *)
Theorem decay_unit_interval (bm bm2 : BMesh) (batch : list nat) (u : nat) :
  grow_step_core bm = Ok (bm2, batch) → (u < length (verts bm))%nat →
  0 <= get_vertex_weight bm u group_index <= 1 → 0 <= weight_decay →
  0 <= get_vertex_weight bm2 u group_index <= 1 ∧
  (1 <= weight_decay →
   get_vertex_weight bm2 u group_index <= get_vertex_weight bm u group_index) ∧
  (weight_decay <= 1 →
   get_vertex_weight bm u group_index <= get_vertex_weight bm2 u group_index).
Proof.
  intros Hcore Hlt Hw Hd.
  destruct (grow_step_core_weights _ _ _ u Hcore Hlt)
    as (_ & _ & w' & Hpow & Hdef).
  destruct (py_pow_unit_interval _ _ Hw Hd) as (w'' & Hpow' & Hb).
  rewrite Hpow in Hpow'. injection Hpow' as <-.
  rewrite (weight_of_insert _ _ _ _ Hdef).
  by rewrite clamp_f_id by apply Hb.
Qed.

(** X20.  Under a positive exponent a vertex whose weight is not negative is
    active after the step exactly when it was active before: a weight of 0
    stays 0 and a positive weight stays positive. *)
Theorem active_set_kept (bm bm2 : BMesh) (batch : list nat) (u : nat) :
  grow_step_core bm = Ok (bm2, batch) → (u < length (verts bm))%nat →
  0 <= get_vertex_weight bm u group_index → 0 < weight_decay →
  (active bm2 u ↔ active bm u) ∧
  (get_vertex_weight bm u group_index = 0 →
   get_vertex_weight bm2 u group_index = 0).
Proof.
  intros Hcore Hlt Hw Hd.
  destruct (grow_step_core_weights _ _ _ u Hcore Hlt)
    as (_ & _ & w' & Hpow & Hdef).
  unfold active. rewrite (weight_of_insert _ _ _ _ Hdef).
  assert (get_vertex_weight bm u group_index = 0 → clamp_f w' 0 1 = 0)
    as Hzero.
  { intros H0. rewrite H0 in Hpow. unfold py_pow in Hpow.
    destruct (Req_dec_T weight_decay 0) as [?|_]; [lra|].
    destruct (Req_dec_T 0 0) as [_|?]; [|lra].
    destruct (Rlt_dec weight_decay 0); [lra|]. injection Hpow as <-.
    apply clamp_f_id. lra. }
  split; [|exact Hzero]. split.
  - intros Hpos. destruct Hw as [Hw|Hw]; [exact Hw|].
    symmetry in Hw. apply Hzero in Hw. lra.
  - intros Hpos. by apply clamp_f_pos, (py_pow_pos _ _ Hpos).
Qed.

(** With all three coefficients 0 the force loop moves nothing. *)
Lemma forces_value_no_force kd vs bm u :
  fac_attr = 0 → fac_rep = 0 → fac_noise = 0 →
  co (vert (forces_value kd vs bm) u) = co (vert bm u).
Proof.
  intros Ha Hr Hn. unfold forces_value. revert bm.
  induction vs as [|v vs IH]; intros bm; simpl; [reflexivity|].
  rewrite IH. unfold move_value. destruct (Req_dec_T _ 0); [reflexivity|].
  rewrite vert_set_co. case_decide as H; [|reflexivity].
  destruct H as [-> _]. simpl. rewrite Ha, Hr, Hn. vec.
Qed.

(** X21.  With a time step of 0, or with all three force coefficients 0, a
    step moves no vertex: the mesh that reaches the subdivision call has the
    positions of the mesh at step start. *)
Theorem no_motion (bm bm2 : BMesh) (batch : list nat) :
  dt = 0 ∨ (fac_attr = 0 ∧ fac_rep = 0 ∧ fac_noise = 0) →
  grow_step_core bm = Ok (bm2, batch) →
  ∀ u, co (vert bm2 u) = co (vert bm u).
Proof.
  intros Hstill (_ & Hdecay & _)%grow_step_core_Ok u.
  apply readjust_weights_Ok in Hdecay as (_ & _ & Hco & _). rewrite Hco.
  destruct Hstill as [Hdt|(Ha & Hr & Hn)].
  - by apply forces_value_dt_zero.
  - by apply forces_value_no_force.
Qed.

Lemma scan_NoDup (bm : BMesh) (es acc l : list nat) :
  for_each (λ acc e,
              keep ← wants_subdivide bm e;
              Ok (if keep : bool then acc ++ [e] else acc)) es acc = Ok l →
  NoDup (acc ++ es) → NoDup l.
Proof.
  revert acc. induction es as [|x es IH]; intros acc; simpl.
  { intros H. injection H as <-. by rewrite app_nil_r. }
  destruct (wants_subdivide bm x) as [keep|err]; simpl;
    [|intros H; discriminate H].
  intros Hrest Hnd. apply (IH _ Hrest). destruct keep.
  - by rewrite <- app_assoc.
  - apply NoDup_app in Hnd as (Hacc & Hdisj & [_ Hes]%NoDup_cons).
    apply NoDup_app. split; [exact Hacc|]. split; [|exact Hes].
    intros e He Hin. apply (Hdisj e He). by right.
Qed.

(** X16.  The batch handed to the subdivision call lists no edge twice, and
    each of its edges is an edge of the mesh with an endpoint that was active
    at step start; a batch that is not empty needs a split radius other than
    0. *)
Theorem batch_edges (bm bm2 : BMesh) (batch : list nat) :
  grow_step_core bm = Ok (bm2, batch) →
  NoDup batch ∧
  ∀ e, e ∈ batch →
    (e < length (edges bm))%nat ∧
    (∃ v, (v < length (verts bm))%nat ∧ active bm v ∧
          (ev1 (edge bm e) = v ∨ ev2 (edge bm e) = v)) ∧
    split_radius ≠ 0.
Proof.
  intros Hcore. split.
  - pose proof Hcore as (_ & _ & Hscan)%grow_step_core_Ok.
    apply (scan_NoDup _ _ _ _ Hscan). simpl. apply NoDup_elements.
  - intros e [He Hw]%(elem_of_batch _ _ _ _ Hcore).
    apply collect_verts_snd in He as (v & Hlt & Ha & [Hlen Hv]%elem_of_link_edges).
    split; [exact Hlen|]. split; [by exists v|].
    intros Hs. destruct (Req_dec_T (avg_weight_of bm2 e) 0) as [H0|Hne].
    + rewrite wants_subdivide_zero in Hw by exact H0. discriminate Hw.
    + rewrite wants_subdivide_raise in Hw by done. discriminate Hw.
Qed.

Lemma decays_nonneg (w : R) :
  0 <= w → decays w ↔ (w = 0 → 0 <= weight_decay).
Proof.
  intros Hw. unfold decays. split.
  - intros [Hd|[Hpos|[[_ Hd]|[Hneg _]]]] H0; lra.
  - intros Hd. destruct Hw as [Hpos|Hz]; [by right; left|].
    destruct (Hd (eq_sym Hz)) as [Hlt|Heq]; [|by left].
    right; right; left. by split.
Qed.

Lemma weight_nonneg_after (bm bm2 : BMesh) (batch : list nat) :
  grow_step_core bm = Ok (bm2, batch) →
  (∀ u, (u < length (verts bm))%nat →
        0 <= get_vertex_weight bm u group_index) →
  ∀ u, 0 <= get_vertex_weight bm2 u group_index.
Proof.
  intros Hcore Hall u.
  destruct (decide (u < length (verts bm))%nat) as [Hlt|Hge].
  - destruct (grow_step_core_weights _ _ _ u Hcore Hlt)
      as (_ & _ & w' & Hpow & Hdef).
    rewrite (weight_of_insert _ _ _ _ Hdef). apply clamp_f_range.
  - destruct (grow_step_core_shape _ _ _ Hcore) as [Hlen _].
    unfold get_vertex_weight. rewrite vert_out_of_range by lia. simpl.
    rewrite lookup_empty. lra.
Qed.

Lemma calc_forces_radius kd vs bm bm' v :
  calc_forces kd vs bm = Ok bm' → v ∈ vs →
  get_vertex_weight bm v group_index ≠ 0 → 0 <= collision_radius.
Proof.
  intros Hret Hv Hw.
  destruct (Rlt_dec collision_radius 0) as [Hneg|Hge]; [|lra].
  rewrite (calc_forces_raises kd vs bm v Hneg Hv Hw) in Hret.
  discriminate Hret.
Qed.

(** X22.  A step that returns on a mesh without negative weights met all of
    these: the group index is not negative if the mesh has a vertex; the
    collision radius is not negative if some vertex is active; no vertex of
    weight 0 meets a negative decay exponent; and, if the split radius is 0,
    no active vertex has a linked edge.  Weights and exponents are real
    numbers here. *)
Theorem grow_step_returns_only_if (bm bm' : BMesh) :
  (∀ u, (u < length (verts bm))%nat →
        0 <= get_vertex_weight bm u group_index) →
  grow_step bm = Ok bm' →
  (verts bm ≠ [] → (0 <= group_index)%Z) ∧
  (∀ v, (v < length (verts bm))%nat → active bm v → 0 <= collision_radius) ∧
  (∀ u, (u < length (verts bm))%nat →
        get_vertex_weight bm u group_index = 0 → 0 <= weight_decay) ∧
  (split_radius = 0 →
   ∀ v, (v < length (verts bm))%nat → active bm v → link_edges bm v = []).
Proof.
  intros Hnn (bm2 & batch & Hcore & _)%grow_step_Ok.
  split; [|split; [|split]].
  - intros Hne. apply (grow_step_core_key _ _ _ 0%nat Hcore).
    destruct (verts bm); [contradiction | simpl; lia].
  - intros v Hlt Ha.
    pose proof Hcore as (Hforces & _ & _)%grow_step_core_Ok.
    apply (calc_forces_radius _ _ _ _ v Hforces).
    + by apply elem_of_collect_verts.
    + unfold active in Ha. lra.
  - intros u Hlt. apply decays_nonneg; [by apply Hnn|].
    apply py_pow_float_iff.
    destruct (grow_step_core_weights _ _ _ u Hcore Hlt)
      as (_ & _ & w' & Hpow & _).
    by exists w'.
  - intros Hs v Hlt Ha.
    destruct (link_edges bm v) as [|e l] eqn:Hlink; [reflexivity|]. exfalso.
    assert (e ∈ link_edges bm v) as He by (rewrite Hlink; by left).
    assert (e ∈ (collect_verts bm).2) as Hin
      by (apply collect_verts_snd; by exists v).
    pose proof Hcore as (_ & _ & Hscan)%grow_step_core_Ok.
    destruct (scan_Ok_each _ _ _ _ Hscan e) as [b Hb];
      [by apply elem_of_elements|].
    rewrite wants_subdivide_raise in Hb; [discriminate Hb| |exact Hs].
    pose proof (weight_nonneg_after _ _ _ Hcore Hnn) as Hnn2.
    destruct (scanned_edge_weight _ _ _ _ Hcore Hin) as [Hp|Hp];
      unfold avg_weight_of.
    * pose proof (Hnn2 (ev2 (edge bm2 e))). lra.
    * pose proof (Hnn2 (ev1 (edge bm2 e))). lra.
Qed.

Lemma neighbours_same_edges (bm bm' : BMesh) (v : nat) :
  edges bm' = edges bm → neighbours bm' v = neighbours bm v.
Proof.
  intros He. unfold neighbours, link_edges, edge. by rewrite He.
Qed.

Lemma attraction_value_moved_neighbours (bm : BMesh) (kd : KDTree)
    (earlier later : list nat) (v : nat) :
  NoDup (earlier ++ v :: later) →
  let bm1 := forces_value kd earlier bm in
  let moved := forces_value kd (earlier ++ v :: later) bm in
  calc_vert_attraction bm1 v
    = vsum ((λ o, (if decide (o ∈ earlier) then co (vert moved o)
                   else co (vert bm o)) - co (vert bm v))%V
              <$> neighbours bm v).
Proof.
  intros Hnd bm1 moved.
  apply NoDup_app in Hnd as (_ & Hdisj & [Hv Hlater]%NoDup_cons).
  rewrite calc_vert_attraction_sum.
  rewrite (neighbours_same_edges bm bm1) by apply edges_forces_value.
  f_equal. apply list_fmap_ext. intros i o _. f_equal.
  - case_decide as Ho.
    + unfold moved. rewrite forces_value_app. fold bm1.
      rewrite co_forces_value_notin; [reflexivity|].
      intros Hin. by apply (Hdisj o Ho).
    + by apply co_forces_value_notin.
  - apply co_forces_value_notin. intros Hin. apply (Hdisj v Hin). by left.
Qed.

(** X24.  At its turn in the force loop a vertex is attracted towards its
    neighbours where they are at that moment: a neighbour that had its turn
    earlier counts with the position the step gives it, any other neighbour
    with its position at step start. *)
Theorem attraction_reads_moved_neighbours (bm bm1 moved : BMesh) (kd : KDTree)
    (earlier later : list nat) (v : nat) :
  NoDup (earlier ++ v :: later) →
  calc_forces kd earlier bm = Ok bm1 →
  calc_forces kd (earlier ++ v :: later) bm = Ok moved →
  calc_vert_attraction bm1 v
    = vsum ((λ o, (if decide (o ∈ earlier) then co (vert moved o)
                   else co (vert bm o)) - co (vert bm v))%V
              <$> neighbours bm v).
Proof.
  intros Hnd ->%calc_forces_Ok ->%calc_forces_Ok.
  by apply attraction_value_moved_neighbours.
Qed.

Lemma build_kd_translate (t : Vector) (bm : BMesh) :
  build_kd (translate t bm) = (λ p, ((p.1 + t)%V, p.2)) <$> build_kd bm.
Proof.
  rewrite !build_kd_all, <- list_fmap_compose. unfold all_verts, translate.
  simpl. rewrite length_fmap. apply list_fmap_ext.
  intros i u [-> Hu]%lookup_seq. simpl.
  by rewrite (vert_translate t bm) by lia.
Qed.

Lemma repulsion_shift (t c : Vector) (v : nat) (radius : R) (kd : KDTree) :
  vsum (repulsion_of (c + t) radius
          <$> repellers ((λ p, ((p.1 + t)%V, p.2)) <$> kd) v (c + t) radius)
  = vsum (repulsion_of c radius <$> repellers kd v c radius).
Proof.
  assert (∀ p : Vector * nat,
            distance_to (c + t) ((p.1 + t)%V, p.2) = distance_to c p) as Hd.
  { intros p. unfold distance_to; simpl. f_equal. vec. }
  assert (∀ p : Vector * nat,
            repulsion_of (c + t) radius ((p.1 + t)%V, p.2)
              = repulsion_of c radius p) as Hr.
  { intros p. unfold repulsion_of. rewrite Hd. simpl. do 2 f_equal. vec. }
  unfold repellers. induction kd as [|p kd IH]; [reflexivity|].
  rewrite fmap_cons.
  destruct (decide (distance_to c p <= radius * 2)) as [Hin|Hout].
  - rewrite (filter_cons_True (λ p, distance_to (c + t) p <= radius * 2))
      by (by rewrite Hd).
    rewrite (filter_cons_True (λ p, distance_to c p <= radius * 2))
      by exact Hin.
    destruct (decide (p.2 = v)) as [Heq|Hne].
    + rewrite !(filter_cons_False (λ p : Vector * nat, p.2 ≠ v))
        by (simpl; intros Hn; by apply Hn).
      exact IH.
    + rewrite !(filter_cons_True (λ p : Vector * nat, p.2 ≠ v))
        by exact Hne.
      rewrite !fmap_cons. cbn [vsum foldr]. rewrite Hr. f_equal. exact IH.
  - rewrite (filter_cons_False (λ p, distance_to (c + t) p <= radius * 2))
      by (by rewrite Hd).
    rewrite (filter_cons_False (λ p, distance_to c p <= radius * 2))
      by exact Hout.
    exact IH.
Qed.

Lemma repulsion_value_translate (t : Vector) (bm : BMesh) (v : nat)
    (radius : R) :
  (v < length (verts bm))%nat →
  repulsion_value (translate t bm) v (build_kd (translate t bm)) radius
    = repulsion_value bm v (build_kd bm) radius.
Proof.
  intros Hlt. rewrite !repulsion_value_sum, build_kd_translate.
  rewrite vert_translate by exact Hlt. apply repulsion_shift.
Qed.

(** X23.  Repulsion does not change when the mesh is moved as a whole and
    the index is built from the moved mesh. *)
Theorem calc_vert_repulsion_translate (t : Vector) (bm : BMesh) (v : nat)
    (radius : R) :
  (v < length (verts bm))%nat →
  calc_vert_repulsion (translate t bm) v (build_kd (translate t bm)) radius
    = calc_vert_repulsion bm v (build_kd bm) radius.
Proof.
  intros Hlt. by apply calc_vert_repulsion_eq, repulsion_value_translate.
Qed.

End grow_step.

Lemma split_at_midpoints_keeps_weights :
  subdivide_keeps_weights split_at_midpoints.
Proof.
  intros bm batch. unfold split_at_midpoints. revert bm.
  induction batch as [|e batch IH]; intros bm u Hlt; simpl; [reflexivity|].
  rewrite IH.
  - unfold vert, split_edge; simpl. by rewrite lookup_total_app_l.
  - unfold split_edge; simpl. rewrite length_app. lia.
Qed.

Lemma segment_weight_0 (len w0 w1 : R) :
  get_vertex_weight (segment len w0 w1) 0 0 = w0.
Proof. unfold get_vertex_weight; simpl. by rewrite lookup_singleton_eq. Qed.

Lemma segment_weight_1 (len w0 w1 : R) :
  get_vertex_weight (segment len w0 w1) 1 0 = w1.
Proof. unfold get_vertex_weight; simpl. by rewrite lookup_singleton_eq. Qed.

Lemma segment_weights (len w0 w1 : R) (P : R → Prop) :
  P w0 → P w1 →
  ∀ u, (u < length (verts (segment len w0 w1)))%nat →
       P (get_vertex_weight (segment len w0 w1) u 0).
Proof.
  intros H0 H1 u Hlt. simpl in Hlt.
  destruct u as [|[|u]]; [|  |lia].
  - by rewrite segment_weight_0.
  - by rewrite segment_weight_1.
Qed.


Lemma decays_positive (weight_decay w : R) : 0 < w → decays weight_decay w.
Proof. intros Hw. right. by left. Qed.

(** [0.0 ** -1.0] raises. *)
Lemma py_pow_zero_negative : py_pow 0 (-1) = Raise ZeroDivisionError.
Proof.
  unfold py_pow.
  destruct (Req_dec_T (-1) 0) as [?|_]; [lra|].
  destruct (Req_dec_T 0 0) as [_|?]; [|lra].
  destruct (Rlt_dec (-1) 0) as [_|?]; [reflexivity | lra].
Qed.

(** [(-1.0) ** 0.5] is a complex number, which [set_vertex_weight] cannot
    store. *)
Lemma py_pow_negative_half : py_pow (-1) (1 / 2) = Ok PyComplex.
Proof.
  unfold py_pow.
  destruct (Req_dec_T (1 / 2) 0) as [?|_]; [lra|].
  destruct (Req_dec_T (-1) 0) as [?|_]; [lra|].
  destruct (Rlt_dec 0 (-1)) as [?|_]; [lra|].
  destruct (is_integer_dec (1 / 2)) as [Hint|_]; [|reflexivity].
  exfalso. unfold is_integer in Hint.
  assert (IZR (2 * Int_part (1 / 2)) = IZR 1) as Heq
    by (rewrite mult_IZR; lra).
  apply eq_IZR in Heq. lia.
Qed.

(** [0.5 ** -1.0] is 2. *)
Lemma py_pow_half_inverse : py_pow (1 / 2) (-1) = Ok (PyFloat 2).
Proof.
  unfold py_pow.
  destruct (Req_dec_T (-1) 0) as [?|_]; [lra|].
  destruct (Req_dec_T (1 / 2) 0) as [?|_]; [lra|].
  destruct (Rlt_dec 0 (1 / 2)) as [_|?]; [|lra].
  do 2 f_equal. replace (-1) with (- (1)) by lra.
  rewrite Rpower_Ropp, Rpower_1 by lra. field.
Qed.

Lemma py_pow_square (w : R) : 0 < w → py_pow w 2 = Ok (PyFloat (w * w)).
Proof.
  intros Hw. unfold py_pow.
  destruct (Req_dec_T 2 0) as [?|_]; [lra|].
  destruct (Req_dec_T w 0) as [?|_]; [lra|].
  destruct (Rlt_dec 0 w) as [_|?]; [|lra].
  do 2 f_equal. replace 2 with (INR 2) by (simpl; lra).
  rewrite Rpower_pow by exact Hw. simpl. ring.
Qed.

(** The decay pass raises on a weight of 0 under a negative exponent, also
    when no vertex is active. *)
Lemma grow_step_raises_on_negative_exponent :
  grow_step still_noise split_at_midpoints 0 0 1 1 1 (-1) 1 1 1 0
    (segment 1 0 0) = Raise ZeroDivisionError.
Proof.
  destruct (grow_step_inert still_noise split_at_midpoints 0 0 1 1 1 (-1)
              1 1 1 0 (segment 1 0 0)) as [_ ->].
  - apply (segment_weights 1 0 0 (λ w, ¬ 0 < w)); lra.
  - change (readjust_weights 0 (-1) (segment 1 0 0))
      with (s' ← decay_vert 0 (-1) (segment 1 0 0) 0;
            for_each (decay_vert 0 (-1)) [1%nat] s').
    unfold decay_vert.
    by rewrite segment_weight_0, py_pow_zero_negative.
Qed.

(** The segment keeps its length through a force loop with time step 0. *)
Lemma segment_length_after_forces noise_vector seed collision_radius
    noise_scale fac_attr fac_rep fac_noise kd vs (len w0 w1 : R) :
  0 <= len →
  calc_length (forces_value noise_vector 0 seed collision_radius 0 noise_scale
                 fac_attr fac_rep fac_noise kd vs (segment len w0 w1)) 0
  = len.
Proof.
  intros Hlen. unfold calc_length, edge. rewrite edges_forces_value. simpl.
  rewrite !forces_value_dt_zero by reflexivity. simpl.
  unfold vlength; simpl.
  replace ((0 - len) * (0 - len) + (0 - 0) * (0 - 0) + (0 - 0) * (0 - 0))
    with (len * len) by ring.
  by apply sqrt_square.
Qed.

Lemma segment_length (len w0 w1 : R) :
  0 <= len → calc_length (segment len w0 w1) 0 = len.
Proof.
  intros Hlen.
  apply (segment_length_after_forces still_noise 0 0 0 0 0 0 [] [] len w0 w1
           Hlen).
Qed.

Lemma segment_edge_collected (len w0 w1 : R) :
  0 < w0 → 0%nat ∈ (collect_verts 0 (segment len w0 w1)).2.
Proof.
  intros Hw. apply collect_verts_snd. exists 0%nat.
  split; [simpl; lia|]. split.
  - unfold active. by rewrite segment_weight_0.
  - apply elem_of_link_edges. split; [simpl; lia | by left].
Qed.

(** The only edge a scan of a segment can put into the batch is edge 0. *)
Lemma segment_batch noise_vector seed collision_radius split_radius dt
    weight_decay noise_scale fac_attr fac_rep fac_noise (len w0 w1 : R)
    (bm2 : BMesh) (batch : list nat) :
  grow_step_core noise_vector 0 seed collision_radius split_radius dt
    weight_decay noise_scale fac_attr fac_rep fac_noise (segment len w0 w1)
    = Ok (bm2, batch) →
  0%nat ∉ batch → batch = [].
Proof.
  intros Hcore Hnot. destruct batch as [|e l]; [reflexivity|]. exfalso.
  assert (e ∈ e :: l) as He by (by left).
  apply (elem_of_batch _ _ _ _ _ _ _ _ _ _ _ _ _ _ _ Hcore) in He as [He _].
  apply collect_verts_snd in He as (v & _ & _ & [Hlt _]%elem_of_link_edges).
  simpl in Hlt. assert (e = 0%nat) as -> by lia. apply Hnot. by left.
Qed.

(** A step on a segment returns when the weights and the exponent are not
    negative, the split radius is not 0 and the collision radius is 1. *)
Lemma segment_core_returns (split_radius dt weight_decay len w0 w1 : R) :
  split_radius ≠ 0 → 0 <= w0 → 0 <= w1 → 0 <= weight_decay →
  ∃ bm2 batch,
    grow_step_core still_noise 0 0 1 split_radius dt weight_decay 1 1 1 0
      (segment len w0 w1) = Ok (bm2, batch).
Proof.
  intros Hs Hw0 Hw1 Hd.
  apply grow_step_core_total; [exact Hs | lra | lia |].
  apply segment_weights; apply decays_nonneg; try done; by intros _.
Qed.

Lemma segment_returns (split_radius dt weight_decay len w0 w1 : R) :
  split_radius ≠ 0 → 0 <= w0 → 0 <= w1 → 0 <= weight_decay →
  ∃ bm',
    grow_step still_noise split_at_midpoints 0 0 1 split_radius dt
      weight_decay 1 1 1 0 (segment len w0 w1) = Ok bm'.
Proof.
  intros Hs Hw0 Hw1 Hd.
  destruct (segment_core_returns split_radius dt weight_decay len w0 w1)
    as (bm2 & batch & Hcore); try done.
  eexists. apply grow_step_Ok. exists bm2, batch. by split.
Qed.

(** What a step with time step 0 hands to the scan on a segment with the
    positive weight [w] at both ends, and what the scan makes of it. *)
Lemma segment_step (len w split_radius weight_decay w' : R) :
  0 <= len → 0 < w → split_radius ≠ 0 →
  py_pow w weight_decay = Ok (PyFloat w') →
  ∃ bm2 batch,
    grow_step_core still_noise 0 0 1 split_radius 0 weight_decay 1 1 1 0
      (segment len w w) = Ok (bm2, batch) ∧
    deform (vert bm2 0) !! 0%Z = Some (clamp_f w' 0 1) ∧
    get_vertex_weight bm2 (ev1 (edge bm2 0)) 0 = clamp_f w' 0 1 ∧
    get_vertex_weight bm2 (ev2 (edge bm2 0)) 0 = clamp_f w' 0 1 ∧
    avg_weight_of 0 bm2 0 = clamp_f w' 0 1 ∧
    calc_length bm2 0 = len ∧
    (0%nat ∈ batch ↔ len / split_radius > 1 / clamp_f w' 0 1) ∧
    (0%nat ∉ batch → batch = []).
Proof.
  intros Hlen Hw Hs Hpow.
  destruct (grow_step_core_total still_noise 0 0 1 split_radius 0 weight_decay
              1 1 1 0 (segment len w w) Hs) as (bm2 & batch & Hcore);
    [lra | lia | apply segment_weights; by apply decays_positive |].
  exists bm2, batch. split; [exact Hcore|].
  destruct (grow_step_core_weights _ _ _ _ _ _ _ _ _ _ _ _ _ _ 0%nat Hcore)
    as (_ & Hed & w0' & Hp0 & Hd0); [simpl; lia|].
  destruct (grow_step_core_weights _ _ _ _ _ _ _ _ _ _ _ _ _ _ 1%nat Hcore)
    as (_ & _ & w1' & Hp1 & Hd1); [simpl; lia|].
  rewrite segment_weight_0, Hpow in Hp0. rewrite segment_weight_1, Hpow in Hp1.
  injection Hp0 as <-. injection Hp1 as <-.
  assert (get_vertex_weight bm2 (ev1 (edge bm2 0)) 0 = clamp_f w' 0 1) as H1.
  { unfold edge. rewrite Hed. simpl. apply (weight_of_insert _ _ _ _ _ Hd0). }
  assert (get_vertex_weight bm2 (ev2 (edge bm2 0)) 0 = clamp_f w' 0 1) as H2.
  { unfold edge. rewrite Hed. simpl. apply (weight_of_insert _ _ _ _ _ Hd1). }
  assert (avg_weight_of 0 bm2 0 = clamp_f w' 0 1) as Havg.
  { unfold avg_weight_of. rewrite H1, H2. field. }
  assert (calc_length bm2 0 = len) as HL.
  { pose proof Hcore as (_ & Hdecay & _)%grow_step_core_Ok.
    apply readjust_weights_Ok in Hdecay as (Hed' & _ & Hco & _).
    transitivity
      (calc_length
         (forces_value still_noise 0 0 1 0 1 1 1 0 (build_kd (segment len w w))
            (collect_verts 0 (segment len w w)).1 (segment len w w)) 0).
    - unfold calc_length, edge. rewrite Hed'. by rewrite !Hco.
    - by apply segment_length_after_forces. }
  split; [by rewrite Hd0, lookup_insert_eq|].
  split; [exact H1|]. split; [exact H2|]. split; [exact Havg|].
  split; [exact HL|]. split.
  - rewrite (elem_of_batch _ _ _ _ _ _ _ _ _ _ _ _ _ _ _ Hcore).
    assert (0 < clamp_f w' 0 1) as Hpos.
    { apply clamp_f_pos. by apply (py_pow_pos weight_decay w). }
    rewrite wants_subdivide_nonzero by (rewrite ?Havg; lra).
    rewrite Havg, HL. split.
    + intros [_ Hb]. by destruct (Rgt_dec _ _).
    + intros Hgt. split; [by apply segment_edge_collected|].
      destruct (Rgt_dec _ _); [reflexivity | contradiction].
  - apply (segment_batch _ _ _ _ _ _ _ _ _ _ _ _ _ _ _ Hcore).
Qed.

(** The same for the whole step, with the midpoint subdivision. *)
Lemma segment_step_full (len w split_radius weight_decay w' : R) :
  0 <= len → 0 < w → split_radius ≠ 0 →
  py_pow w weight_decay = Ok (PyFloat w') →
  ∃ bm',
    grow_step still_noise split_at_midpoints 0 0 1 split_radius 0 weight_decay
      1 1 1 0 (segment len w w) = Ok bm' ∧
    get_vertex_weight bm' 0 0 = clamp_f w' 0 1.
Proof.
  intros Hlen Hw Hs Hpow.
  destruct (segment_step len w split_radius weight_decay w' Hlen Hw Hs Hpow)
    as (bm2 & batch & Hcore & Hentry & _).
  eexists. split.
  - apply grow_step_Ok. exists bm2, batch. split; [exact Hcore | reflexivity].
  - assert (get_vertex_weight bm2 0 0 = clamp_f w' 0 1) as Hget
      by (unfold get_vertex_weight; by rewrite Hentry).
    destruct (bool_decide _); [|exact Hget].
    unfold get_vertex_weight.
    rewrite split_at_midpoints_keeps_weights; [exact Hget|].
    destruct (grow_step_core_shape _ _ _ _ _ _ _ _ _ _ _ _ _ _ Hcore)
      as [-> _].
    simpl. lia.
Qed.

(** ** Instances of the claims, and the cases in which they fail as
    written *)


Lemma grow_step_position_update_witness :
  ∃ moved,
    calc_forces still_noise 0 0 1 1 1 1 0 0 (build_kd (segment 3 1 1))
      (collect_verts 0 (segment 3 1 1)).1 (segment 3 1 1) = Ok moved ∧
    co (vert moved 0) = mkVector 3 0 0.
Proof.
  assert (active 0 (segment 3 1 1) 0) as Hact.
  { unfold active. rewrite segment_weight_0. lra. }
  destruct (grow_step_position_update still_noise 0 0 1 1 1 1 1 1 0 0
              (segment 3 1 1) 0 ltac:(simpl; lia) Hact)
    as (_ & Hret & Hspec).
  destruct (Hret ltac:(lra)) as [moved Hmoved].
  exists moved. split; [exact Hmoved|].
  destruct (Hspec moved Hmoved) as (bm1 & f_rep & Hbm1 & _ & _ & Hco & _).
  rewrite Hco. clear Hco Hspec Hret Hmoved.
  change (filter (active 0 (segment 3 1 1)) (seq 0 0)) with (@nil nat) in Hbm1.
  injection Hbm1 as <-.
  rewrite segment_weight_0.
  unfold calc_vert_attraction.
  change (link_edges (segment 3 1 1) 0) with [0%nat].
  simpl foldl.
  change (co (vert (segment 3 1 1) 0)) with vzero.
  generalize (still_noise (vzero * 1 + seed_vector 0)%V).
  intros f_noise. apply vector_eq; simpl; ring.
Defined.

Lemma zero_weight_not_moved_witness :
  ∃ moved,
    calc_forces still_noise 0 0 1 1 1 1 1 1 (build_kd (segment 3 1 0))
      (collect_verts 0 (segment 3 1 0)).1 (segment 3 1 0) = Ok moved ∧
    co (vert moved 1) = mkVector 3 0 0.
Proof.
  destruct (zero_weight_not_moved still_noise 0 0 1 1 1 1 1 1 (segment 3 1 0) 1
              [] (collect_verts 0 (segment 3 1 0)).1
              (segment_weight_1 3 1 0) eq_refl)
    as (_ & Hkept & Hret).
  destruct (Hret ltac:(lra)) as (bm1 & moved & _ & Hmoved).
  exists moved. split; [exact Hmoved|].
  by rewrite (Hkept moved Hmoved).
Defined.

Lemma weight_after_step_witness :
  ∃ bm', grow_step still_noise split_at_midpoints 0 0 1 1 0 2 1 1 1 0
           (segment 1 (1 / 2) (1 / 2)) = Ok bm' ∧
         get_vertex_weight bm' 0 0 = 1 / 2 * (1 / 2).
Proof.
  destruct (segment_step_full 1 (1 / 2) 1 2 (1 / 2 * (1 / 2)))
    as (bm' & Hstep & _); [lra | lra | lra | apply py_pow_square; lra |].
  exists bm'. split; [exact Hstep|].
  destruct (weight_after_step still_noise split_at_midpoints 0 0 1 1 0 2
              1 1 1 0 (segment 1 (1 / 2) (1 / 2)) 0 ltac:(simpl; lia))
    as [_ Hfull].
  destruct (Hfull split_at_midpoints_keeps_weights bm' Hstep)
    as (w' & Hpow & _ & Hid).
  rewrite segment_weight_0, py_pow_square in Hpow by lra.
  injection Hpow as <-. apply Hid. lra.
Defined.

(** C2, counterexample.  On the segment of length 1 with both weights 1/2,
    a step with decay exponent -1 returns, and the weight of vertex 0 reads
    1 afterwards, while [0.5 ** -1] is 2: the write clamps to [[0, 1]]. *)
Lemma weight_after_step_is_clamped :
  ∃ bm', grow_step still_noise split_at_midpoints 0 0 1 1 0 (-1) 1 1 1 0
           (segment 1 (1 / 2) (1 / 2)) = Ok bm' ∧
         py_pow (get_vertex_weight (segment 1 (1 / 2) (1 / 2)) 0 0) (-1)
           = Ok (PyFloat 2) ∧
         get_vertex_weight bm' 0 0 = 1 ∧
         get_vertex_weight bm' 0 0 ≠ 2.
Proof.
  destruct (segment_step_full 1 (1 / 2) 1 (-1) 2)
    as (bm' & Hstep & Hget); [lra | lra | lra | apply py_pow_half_inverse |].
  rewrite clamp_f_above in Hget by lra.
  exists bm'. split; [exact Hstep|].
  split; [rewrite segment_weight_0; apply py_pow_half_inverse|].
  rewrite Hget. split; [reflexivity | lra].
Qed.





(** C7, counterexample.  On the segment of length 1 with both weights 1,
    a step with split radius 0 (and decay exponent 1) raises
    [ZeroDivisionError] at [l / split_radius]. *)
Lemma grow_step_raises_on_zero_split_radius :
  grow_step still_noise split_at_midpoints 0 0 1 0 1 1 1 1 1 0 (segment 1 1 1)
    = Raise ZeroDivisionError ∧
  ¬ ∃ bm', grow_step still_noise split_at_midpoints 0 0 1 0 1 1 1 1 1 0
             (segment 1 1 1) = Ok bm'.
Proof.
  assert (grow_step still_noise split_at_midpoints 0 0 1 0 1 1 1 1 1 0
            (segment 1 1 1) = Raise ZeroDivisionError) as Hraise.
  { apply (grow_step_zero_split_radius _ _ _ _ _ _ _ _ _ _ _ _ _ 0%nat).
    - reflexivity.
    - lra.
    - lia.
    - apply segment_weights; apply decays_positive; lra.
    - simpl. lia.
    - simpl. lia.
    - simpl. lia.
    - change (ev1 (edge (segment 1 1 1) 0)) with 0%nat.
      rewrite segment_weight_0. lra.
    - change (ev2 (edge (segment 1 1 1) 0)) with 1%nat.
      rewrite segment_weight_1. lra. }
  split; [exact Hraise|]. intros [bm' Hok]. rewrite Hraise in Hok.
  discriminate Hok.
Qed.

Lemma grow_step_completes_witness :
  ∃ bm', grow_step still_noise split_at_midpoints 0 0 1 1 1 1 1 1 1 0
           (segment 1 1 1) = Ok bm'.
Proof.
  apply grow_step_completes.
  - lra.
  - lra.
  - lia.
  - apply segment_weights; apply decays_positive; lra.
Defined.

Lemma coincident_point_adds_zero_witness :
  calc_vert_repulsion (segment 1 1 1) 0 ([] ++ (vzero, 1%nat) :: []) 1
    = calc_vert_repulsion (segment 1 1 1) 0 ([] ++ []) 1.
Proof.
  apply (coincident_point_adds_zero (segment 1 1 1) 0 1 [] [] 1 0).
  lia.
Defined.

Lemma subdivision_threshold_witness :
  (∃ bm2 batch,
     grow_step_core still_noise 0 0 1 1 0 1 1 1 1 0 (segment 3 1 1)
       = Ok (bm2, batch) ∧ 0%nat ∈ batch ∧
     grow_step still_noise split_at_midpoints 0 0 1 1 0 1 1 1 1 0
       (segment 3 1 1) = Ok (split_at_midpoints bm2 batch)) ∧
  (∃ bm2 batch,
     grow_step_core still_noise 0 0 1 3 0 1 1 1 1 0 (segment 3 1 1)
       = Ok (bm2, batch) ∧ 0%nat ∉ batch).
Proof.
  split.
  - destruct (segment_step 3 1 1 1 1)
      as (bm2 & batch & Hcore & _ & H1 & H2 & _ & HL & _);
      [lra | lra | lra | apply py_pow_exponent_one |].
    rewrite clamp_f_id in H1, H2 by lra.
    exists bm2, batch. split; [exact Hcore|].
    destruct (subdivision_threshold still_noise split_at_midpoints 0 0 1 1 0 1
                1 1 1 0 (segment 3 1 1) bm2 batch Hcore) as (_ & Hthr & _).
    destruct (Hthr 0%nat 3 1) as (Hiff & _ & Hsub);
      [by apply segment_edge_collected; lra | done | done | done | lra |].
    split; [apply Hiff; lra | apply Hsub; lra].
  - destruct (segment_step 3 1 3 1 1)
      as (bm2 & batch & Hcore & _ & H1 & H2 & _ & HL & _);
      [lra | lra | lra | apply py_pow_exponent_one |].
    rewrite clamp_f_id in H1, H2 by lra.
    exists bm2, batch. split; [exact Hcore|].
    destruct (subdivision_threshold still_noise split_at_midpoints 0 0 1 3 0 1
                1 1 1 0 (segment 3 1 1) bm2 batch Hcore) as (_ & Hthr & _).
    destruct (Hthr 0%nat 3 1) as (_ & Hboundary & _);
      [by apply segment_edge_collected; lra | done | done | done | lra |].
    apply Hboundary. lra.
Defined.

(** C3, counterexample.  Two steps with split radius 1 on a segment of
    length 3, which the force loop leaves at length 3, subdivide nothing
    although [L * W > split_radius].  In the first both endpoints start
    with the weight 1/2 and the decay exponent is 2: [3 * 0.5 > 1], but the
    scan reads the weights after the decay, [0.25].  In the second both
    endpoints start with the weight 0 and the decay exponent is 0: the scan
    would read the weight 1 at both ends and [3 * 1 > 1], but the edge is
    linked to no vertex that was active at step start and is not scanned. *)
Lemma subdivision_threshold_not_met :
  (∃ bm2,
     grow_step_core still_noise 0 0 1 1 0 2 1 1 1 0
       (segment 3 (1 / 2) (1 / 2)) = Ok (bm2, []) ∧
     grow_step still_noise split_at_midpoints 0 0 1 1 0 2 1 1 1 0
       (segment 3 (1 / 2) (1 / 2)) = Ok bm2 ∧
     edges bm2 = edges (segment 3 (1 / 2) (1 / 2)) ∧
     calc_length bm2 0 = 3 ∧
     get_vertex_weight (segment 3 (1 / 2) (1 / 2)) 0 0 = 1 / 2 ∧
     get_vertex_weight (segment 3 (1 / 2) (1 / 2)) 1 0 = 1 / 2 ∧
     3 * (1 / 2) > 1) ∧
  (∃ bm2,
     grow_step_core still_noise 0 0 1 1 0 0 1 1 1 0 (segment 3 0 0)
       = Ok (bm2, []) ∧
     grow_step still_noise split_at_midpoints 0 0 1 1 0 0 1 1 1 0
       (segment 3 0 0) = Ok bm2 ∧
     edges bm2 = edges (segment 3 0 0) ∧
     calc_length bm2 0 = 3 ∧
     get_vertex_weight bm2 (ev1 (edge bm2 0)) 0 = 1 ∧
     get_vertex_weight bm2 (ev2 (edge bm2 0)) 0 = 1 ∧
     3 * 1 > 1).
Proof.
  split.
  - destruct (segment_step 3 (1 / 2) 1 2 (1 / 2 * (1 / 2)))
      as (bm2 & batch & Hcore & _ & _ & _ & _ & HL & Hiff & Hnil);
      [lra | lra | lra | apply py_pow_square; lra |].
    rewrite clamp_f_id in Hiff by lra.
    assert (batch = []) as ->.
    { apply Hnil. intros Hin%Hiff.
      replace (1 / (1 / 2 * (1 / 2))) with 4 in Hin by field. lra. }
    exists bm2. split; [exact Hcore|]. split.
    { apply grow_step_Ok. exists bm2, []. by split. }
    split.
    { by destruct (grow_step_core_shape _ _ _ _ _ _ _ _ _ _ _ _ _ _ Hcore). }
    split; [exact HL|]. rewrite segment_weight_0, segment_weight_1.
    repeat split; lra.
  - destruct (segment_core_returns 1 0 0 3 0 0) as (bm2 & batch & Hcore);
      [lra | lra | lra | lra |].
    destruct (grow_step_inert still_noise split_at_midpoints 0 0 1 1 0 0
                1 1 1 0 (segment 3 0 0)) as [Hinert _].
    { apply (segment_weights 3 0 0 (λ w, ¬ 0 < w)); lra. }
    assert (batch = []) as ->.
    { rewrite Hinert in Hcore.
      destruct (readjust_weights 0 0 (segment 3 0 0)); [|discriminate Hcore].
      by injection Hcore as _ <-. }
    exists bm2. split; [exact Hcore|]. split.
    { apply grow_step_Ok. exists bm2, []. by split. }
    destruct (grow_step_core_shape _ _ _ _ _ _ _ _ _ _ _ _ _ _ Hcore)
      as [_ Hed].
    split; [exact Hed|]. split.
    { pose proof Hcore as (_ & Hdecay & _)%grow_step_core_Ok.
      apply readjust_weights_Ok in Hdecay as (Hed' & _ & Hco & _).
      transitivity
        (calc_length
           (forces_value still_noise 0 0 1 0 1 1 1 0 (build_kd (segment 3 0 0))
              (collect_verts 0 (segment 3 0 0)).1 (segment 3 0 0)) 0).
      - unfold calc_length, edge. rewrite Hed'. by rewrite !Hco.
      - apply segment_length_after_forces. lra. }
    destruct (grow_step_core_weights _ _ _ _ _ _ _ _ _ _ _ _ _ _ 0%nat Hcore)
      as (_ & _ & w0' & Hp0 & Hd0); [simpl; lia|].
    destruct (grow_step_core_weights _ _ _ _ _ _ _ _ _ _ _ _ _ _ 1%nat Hcore)
      as (_ & _ & w1' & Hp1 & Hd1); [simpl; lia|].
    rewrite py_pow_exponent_zero in Hp0, Hp1.
    injection Hp0 as <-. injection Hp1 as <-.
    rewrite clamp_f_id in Hd0, Hd1 by lra.
    unfold edge. rewrite Hed. simpl.
    rewrite (weight_of_insert _ _ _ _ _ Hd0), (weight_of_insert _ _ _ _ _ Hd1).
    repeat split; lra.
Qed.

Lemma scan_reads_decayed_weights_witness :
  ∃ bm2 batch,
    grow_step_core still_noise 0 0 1 1 0 2 1 1 1 0 (segment 3 (1 / 2) (1 / 2))
      = Ok (bm2, batch) ∧
    (0%nat ∉ batch) ∧
    (calc_length (segment 3 (1 / 2) (1 / 2)) 0 / 1
       > 1 / avg_weight_of 0 (segment 3 (1 / 2) (1 / 2)) 0).
Proof.
  destruct (segment_core_returns 1 0 2 3 (1 / 2) (1 / 2))
    as (bm2 & batch & Hcore); [lra | lra | lra | lra |].
  exists bm2, batch. split; [exact Hcore|]. split.
  - destruct (scan_reads_decayed_weights still_noise 0 0 1 1 0 2 1 1 1 0
                (segment 3 (1 / 2) (1 / 2)) bm2 batch 0 Hcore)
      as (moved & w1 & w2 & Hmoved & Hp1 & Hp2 & _ & _ & Hiff);
      [simpl; lia | simpl; lia |].
    change (ev1 (edge (segment 3 (1 / 2) (1 / 2)) 0)) with 0%nat in Hp1.
    change (ev2 (edge (segment 3 (1 / 2) (1 / 2)) 0)) with 1%nat in Hp2.
    rewrite segment_weight_0, py_pow_square in Hp1 by lra.
    rewrite segment_weight_1, py_pow_square in Hp2 by lra.
    injection Hp1 as <-. injection Hp2 as <-.
    apply calc_forces_Ok in Hmoved as ->.
    rewrite segment_length_after_forces in Hiff by lra.
    rewrite clamp_f_id in Hiff by lra.
    intros Hin. apply Hiff in Hin as (_ & _ & Hgt).
    replace (1 / ((1 / 2 * (1 / 2) + 1 / 2 * (1 / 2)) / 2)) with 4 in Hgt
      by field.
    lra.
  - rewrite segment_length by lra.
    unfold avg_weight_of.
    change (ev1 (edge (segment 3 (1 / 2) (1 / 2)) 0)) with 0%nat.
    change (ev2 (edge (segment 3 (1 / 2) (1 / 2)) 0)) with 1%nat.
    rewrite segment_weight_0, segment_weight_1.
    replace (1 / ((1 / 2 + 1 / 2) / 2)) with 2 by field.
    lra.
Defined.

(** C9, counterexample.  On the segment of length 3/4 with both weights
    1/2, a step with decay exponent -1 and split radius 1 leaves the edge
    out of the batch, although the test holds for the average of the two
    powers [0.5 ** -1 = 2]: [0.75 / 1 > 1 / 2].  The scan reads the clamped
    weight 1, and [0.75 / 1 > 1 / 1] fails. *)
Lemma scan_reads_clamped_weights :
  ∃ bm2 batch,
    grow_step_core still_noise 0 0 1 1 0 (-1) 1 1 1 0
      (segment (3 / 4) (1 / 2) (1 / 2)) = Ok (bm2, batch) ∧
    py_pow (get_vertex_weight (segment (3 / 4) (1 / 2) (1 / 2)) 0 0) (-1)
      = Ok (PyFloat 2) ∧
    py_pow (get_vertex_weight (segment (3 / 4) (1 / 2) (1 / 2)) 1 0) (-1)
      = Ok (PyFloat 2) ∧
    calc_length bm2 0 / 1 > 1 / ((2 + 2) / 2) ∧
    avg_weight_of 0 bm2 0 = 1 ∧
    0%nat ∉ batch.
Proof.
  destruct (segment_step (3 / 4) (1 / 2) 1 (-1) 2)
    as (bm2 & batch & Hcore & _ & _ & _ & Havg & HL & Hiff & _);
    [lra | lra | lra | apply py_pow_half_inverse |].
  rewrite clamp_f_above in Havg, Hiff by lra.
  exists bm2, batch. split; [exact Hcore|].
  rewrite segment_weight_0, segment_weight_1.
  split; [apply py_pow_half_inverse|]. split; [apply py_pow_half_inverse|].
  rewrite HL. split; [lra|]. split; [exact Havg|].
  intros Hin%Hiff. lra.
Qed.

(** ** Instances of the further properties *)


Lemma calc_avg_edge_weight_bounds_witness :
  ∃ a, calc_avg_edge_weight (segment 1 (1 / 2) 1) [0%nat] 0 = Ok a ∧
       1 / 2 <= a <= 1.
Proof.
  apply calc_avg_edge_weight_bounds; [discriminate|].
  intros e ->%list_elem_of_singleton.
  change (ev1 (edge (segment 1 (1 / 2) 1) 0)) with 0%nat.
  change (ev2 (edge (segment 1 (1 / 2) 1) 0)) with 1%nat.
  rewrite segment_weight_0, segment_weight_1. lra.
Defined.

Lemma calc_avg_edge_weight_zero_witness :
  calc_avg_edge_weight (segment 1 0 0) [0%nat] 0 = Ok 0.
Proof.
  apply calc_avg_edge_weight_zero; [discriminate| |];
    intros e ->%list_elem_of_singleton;
    change (ev1 (edge (segment 1 0 0) 0)) with 0%nat;
    change (ev2 (edge (segment 1 0 0) 0)) with 1%nat;
    rewrite segment_weight_0, segment_weight_1; split; (lra || reflexivity).
Defined.

Lemma calc_min_le_avg_edge_length_witness :
  ∃ a, calc_avg_edge_length (chain 1) [0%nat; 1%nat] = Ok a ∧
       calc_min_edge_length (chain 1) [0%nat; 1%nat] <= a.
Proof. apply calc_min_le_avg_edge_length. discriminate. Defined.

Lemma calc_vert_attraction_local_witness :
  calc_vert_attraction (set_co (chain 1) 2 (mkVector 9 9 9)) 0
    = calc_vert_attraction (chain 1) 0.
Proof.
  apply calc_vert_attraction_local; [lia|].
  change (neighbours (chain 1) 0) with [1%nat].
  intros Hin%list_elem_of_singleton. lia.
Defined.

Lemma calc_vert_attraction_translate_witness :
  calc_vert_attraction (translate (mkVector 1 2 3) (chain 1)) 1
    = calc_vert_attraction (chain 1) 1.
Proof.
  apply calc_vert_attraction_translate; [simpl; lia|].
  change (neighbours (chain 1) 1) with [0%nat; 2%nat].
  intros o [->|Ho]%elem_of_cons; [simpl; lia|].
  apply list_elem_of_singleton in Ho as ->. simpl. lia.
Defined.

Lemma calc_vert_repulsion_insertion_order_witness :
  calc_vert_repulsion (chain 1) 0
      [(mkVector 1 0 0, 1%nat); (mkVector 2 0 0, 2%nat)] 1
    = calc_vert_repulsion (chain 1) 0
        [(mkVector 2 0 0, 2%nat); (mkVector 1 0 0, 1%nat)] 1.
Proof. apply calc_vert_repulsion_insertion_order, Permutation_swap. Defined.

Lemma calc_vert_repulsion_ignores_witness :
  calc_vert_repulsion (chain 1) 0 ([] ++ (mkVector 5 5 5, 0%nat) :: []) 1
    = calc_vert_repulsion (chain 1) 0 ([] ++ []) 1.
Proof. apply calc_vert_repulsion_ignores. by left. Defined.

Lemma repulsion_reads_snapshot_witness :
  ∃ bm1,
    calc_forces still_noise 0 0 1 1 1 1 1 0 (build_kd (chain 1))
      [1%nat; 2%nat] (chain 1) = Ok bm1 ∧
    calc_vert_repulsion bm1 0 (build_kd (chain 1)) 1
      = calc_vert_repulsion (chain 1) 0 (build_kd (chain 1)) 1.
Proof.
  eexists. split; [apply calc_forces_returns; lra|].
  apply (repulsion_reads_snapshot still_noise 0 0 1 1 1 1 1 0 (chain 1) _ 0
           [1%nat; 2%nat] (build_kd (chain 1)) (build_kd (chain 1)) 1).
  - intros [H|H]%elem_of_cons; [lia|].
    apply list_elem_of_singleton in H. lia.
  - apply calc_forces_returns. lra.
Defined.

Lemma attraction_reads_moved_neighbours_witness :
  ∃ bm1 moved,
    calc_forces still_noise 0 0 1 1 1 1 1 0 (build_kd (chain 1))
      [0%nat] (chain 1) = Ok bm1 ∧
    calc_forces still_noise 0 0 1 1 1 1 1 0 (build_kd (chain 1))
      ([0%nat] ++ 1%nat :: [2%nat]) (chain 1) = Ok moved ∧
    calc_vert_attraction bm1 1
      = vsum ((λ o, (if decide (o ∈ [0%nat]) then co (vert moved o)
                     else co (vert (chain 1) o)) - co (vert (chain 1) 1))%V
                <$> neighbours (chain 1) 1).
Proof.
  eexists _, _. split; [apply calc_forces_returns; lra|].
  split; [apply calc_forces_returns; lra|].
  apply (attraction_reads_moved_neighbours still_noise 0 0 1 1 1 1 1 0
           (chain 1) _ _ (build_kd (chain 1)) [0%nat] [2%nat] 1).
  - apply (NoDup_seq 0 3).
  - apply calc_forces_returns. lra.
  - apply calc_forces_returns. lra.
Defined.

Lemma calc_vert_repulsion_translate_witness :
  calc_vert_repulsion (translate (mkVector 1 2 3) (chain 1)) 0
      (build_kd (translate (mkVector 1 2 3) (chain 1))) 1
    = calc_vert_repulsion (chain 1) 0 (build_kd (chain 1)) 1.
Proof. apply calc_vert_repulsion_translate. simpl. lia. Defined.

Lemma grow_step_core_frame_witness :
  ∃ bm2 batch,
    grow_step_core still_noise 0 0 1 1 1 2 1 1 1 0 (segment 1 1 1)
      = Ok (bm2, batch) ∧
    length (verts bm2) = 2%nat ∧ edges bm2 = [mkEdge 0 1].
Proof.
  destruct (segment_core_returns 1 1 2 1 1 1) as (bm2 & batch & Hcore);
    [lra | lra | lra | lra |].
  exists bm2, batch. split; [exact Hcore|].
  destruct (grow_step_core_frame _ _ _ _ _ _ _ _ _ _ _ _ _ _ Hcore)
    as (Hlen & Hed & _).
  split; [exact Hlen | exact Hed].
Defined.

Lemma batch_edges_witness :
  ∃ bm2 batch,
    grow_step_core still_noise 0 0 1 1 0 1 1 1 1 0 (segment 3 1 1)
      = Ok (bm2, batch) ∧
    0%nat ∈ batch ∧ NoDup batch ∧
    (∃ v, (v < 2)%nat ∧ active 0 (segment 3 1 1) v ∧
          (ev1 (edge (segment 3 1 1) 0) = v ∨
           ev2 (edge (segment 3 1 1) 0) = v)).
Proof.
  destruct (segment_step 3 1 1 1 1)
    as (bm2 & batch & Hcore & _ & _ & _ & _ & _ & Hiff & _);
    [lra | lra | lra | apply py_pow_exponent_one |].
  rewrite clamp_f_id in Hiff by lra.
  assert (0%nat ∈ batch) as Hin by (apply Hiff; lra).
  exists bm2, batch. split; [exact Hcore|]. split; [exact Hin|].
  destruct (batch_edges _ _ _ _ _ _ _ _ _ _ _ _ _ _ Hcore) as [Hnd Hall].
  split; [exact Hnd|].
  by destruct (Hall 0%nat Hin) as (_ & Hv & _).
Defined.

Lemma decay_exponent_one_witness :
  ∃ bm2 batch,
    grow_step_core still_noise 0 0 1 1 1 1 1 1 1 0 (segment 1 (1 / 2) (1 / 2))
      = Ok (bm2, batch) ∧
    get_vertex_weight bm2 0 0 = 1 / 2.
Proof.
  destruct (segment_core_returns 1 1 1 1 (1 / 2) (1 / 2))
    as (bm2 & batch & Hcore); [lra | lra | lra | lra |].
  exists bm2, batch. split; [exact Hcore|].
  destruct (decay_exponent_one _ _ _ _ _ _ _ _ _ _ _ _ _ _ 0%nat eq_refl Hcore)
    as [Hid _].
  rewrite Hid; rewrite segment_weight_0; [reflexivity | lra].
Defined.

Lemma decay_exponent_zero_witness :
  ∃ bm2 batch,
    grow_step_core still_noise 0 0 1 1 1 0 1 1 1 0 (segment 1 0 0)
      = Ok (bm2, batch) ∧
    get_vertex_weight bm2 0 0 = 1.
Proof.
  destruct (segment_core_returns 1 1 0 1 0 0) as (bm2 & batch & Hcore);
    [lra | lra | lra | lra |].
  exists bm2, batch. split; [exact Hcore|].
  apply (decay_exponent_zero _ _ _ _ _ _ _ _ _ _ _ _ _ _ 0%nat eq_refl Hcore).
  simpl. lia.
Defined.

Lemma decay_unit_interval_witness :
  ∃ bm2 batch,
    grow_step_core still_noise 0 0 1 1 1 2 1 1 1 0 (segment 1 (1 / 2) (1 / 2))
      = Ok (bm2, batch) ∧
    0 <= get_vertex_weight bm2 0 0 <= 1.
Proof.
  destruct (segment_core_returns 1 1 2 1 (1 / 2) (1 / 2))
    as (bm2 & batch & Hcore); [lra | lra | lra | lra |].
  exists bm2, batch. split; [exact Hcore|].
  apply (decay_unit_interval _ _ _ _ _ _ _ _ _ _ _ _ _ _ 0%nat Hcore);
    [simpl; lia | rewrite segment_weight_0; lra | lra].
Defined.

Lemma active_set_kept_witness :
  ∃ bm2 batch,
    grow_step_core still_noise 0 0 1 1 1 2 1 1 1 0 (segment 1 0 0)
      = Ok (bm2, batch) ∧
    get_vertex_weight bm2 0 0 = 0.
Proof.
  destruct (segment_core_returns 1 1 2 1 0 0) as (bm2 & batch & Hcore);
    [lra | lra | lra | lra |].
  exists bm2, batch. split; [exact Hcore|].
  apply (active_set_kept _ _ _ _ _ _ _ _ _ _ _ _ _ _ 0%nat Hcore);
    [simpl; lia | rewrite segment_weight_0; lra | lra |].
  apply segment_weight_0.
Defined.

Lemma no_motion_witness :
  ∃ bm2 batch,
    grow_step_core still_noise 0 0 1 1 0 2 1 1 1 0 (segment 1 1 1)
      = Ok (bm2, batch) ∧
    co (vert bm2 1) = mkVector 1 0 0.
Proof.
  destruct (segment_core_returns 1 0 2 1 1 1) as (bm2 & batch & Hcore);
    [lra | lra | lra | lra |].
  exists bm2, batch. split; [exact Hcore|].
  by rewrite (no_motion _ _ _ _ _ _ _ _ _ _ _ _ _ _ (or_introl eq_refl) Hcore).
Defined.

Lemma grow_step_returns_only_if_witness :
  ∃ bm', grow_step still_noise split_at_midpoints 0 0 1 1 1 2 1 1 1 0
           (segment 1 1 0) = Ok bm' ∧
         (0 <= 0)%Z ∧ 0 <= 1 ∧ 0 <= 2.
Proof.
  destruct (segment_returns 1 1 2 1 1 0) as [bm' Hstep];
    [lra | lra | lra | lra |].
  exists bm'. split; [exact Hstep|].
  destruct (grow_step_returns_only_if still_noise split_at_midpoints 0 0 1 1
              1 2 1 1 1 0 (segment 1 1 0) bm')
    as (Hkey & Hradius & Hdecay & _).
  - apply (segment_weights 1 1 0 (λ w, 0 <= w)); lra.
  - exact Hstep.
  - split; [apply Hkey; discriminate|]. split.
    + apply (Hradius 0%nat); [simpl; lia|].
      unfold active. rewrite segment_weight_0. lra.
    + apply (Hdecay 1%nat); [simpl; lia | apply segment_weight_1].
Defined.
